(** * Whisper batch transcription: the discovery and orchestration loop of index.js

    A shallow embedding of [index.js]: the recursive file discoverer
    [findAudioFiles], the per-file call [transcribeAudio] and the driver
    [main], with the console, the file system and the remote transcription
    service made explicit.  Paths and messages are strings, the output
    directory is a finite map from paths to contents, and a run produces an
    exit status, a trace of observable events and the final output
    directory. *)

From stdpp Require Import base tactics option list strings gmap.
From Stdlib Require Import Ascii String Arith Lia.

#[local] Set Warnings "-clear-no-such-hyp".

Local Open Scope string_scope.
Local Open Scope list_scope.

(** ** Strings as JavaScript uses them here *)

Module Js.

(** [String.prototype.toLowerCase], on the ASCII letters; every other
    character is left as it is.  No character outside ASCII lowercases to
    a letter of the supported extensions, so nothing is lost for them. *)
Definition lower_char (c : ascii) : ascii :=
  let n := nat_of_ascii c in
  if Nat.leb 65 n && Nat.leb n 90 then ascii_of_nat (n + 32) else c.

Fixpoint toLowerCase (s : string) : string :=
  match s with
  | EmptyString => EmptyString
  | String c s' => String (lower_char c) (toLowerCase s')
  end.

(** Truthiness of a string value: only the empty string is falsy. *)
Definition truthy_string (s : string) : bool :=
  negb (String.eqb s "").

(** A value that may be [undefined] or [null] is falsy when it is. *)
Definition truthy (v : option string) : bool :=
  match v with
  | Some s => truthy_string s
  | None => false
  end.

(** What a property read on a plain object literal gives: an own string
    property, a member inherited from [Object.prototype], or
    [undefined]. *)
Inductive value :=
| Undefined
| Str (s : string)
| Inherited (key : string).

Definition truthy_value (v : value) : bool :=
  match v with
  | Undefined => false
  | Str s => truthy_string s
  | Inherited _ => true
  end.

(** The property names every plain object inherits. *)
Definition Object_prototype : list string :=
  [ "constructor"; "hasOwnProperty"; "isPrototypeOf";
    "propertyIsEnumerable"; "toLocaleString"; "toString"; "valueOf";
    "__defineGetter__"; "__defineSetter__"; "__lookupGetter__";
    "__lookupSetter__"; "__proto__" ].

(** The own properties of an object literal, in insertion order (the
    order [Object.entries] lists them in). *)
Fixpoint own (entries : list (string * string)) (key : string)
  : option string :=
  match entries with
  | [] => None
  | (k, v) :: rest => if String.eqb k key then Some v else own rest key
  end.

(** [obj[key]]: own properties first, then the prototype. *)
Definition get (entries : list (string * string)) (key : string) : value :=
  match own entries key with
  | Some v => Str v
  | None =>
      if bool_decide (key ∈ Object_prototype) then Inherited key
      else Undefined
  end.

End Js.

(** ** Node's [path] module (POSIX flavour)

    On the paths this program builds: an absolute directory that does not
    end in a slash, extended by names of directory entries, which are not
    empty and hold no slash. *)

Module Path.

Definition slash : ascii := "/"%char.
Definition dot : ascii := "."%char.

(** Splits [s] at the last occurrence of [sep]: the text before it and
    the text after it. *)
Fixpoint rsplit (sep : ascii) (s : string) : option (string * string) :=
  match s with
  | EmptyString => None
  | String c s' =>
      match rsplit sep s' with
      | Some (before, after) => Some (String c before, after)
      | None => if Ascii.eqb c sep then Some (EmptyString, s') else None
      end
  end.

(** [path.basename(p)]: the last portion of the path. *)
Definition basename (p : string) : string :=
  match rsplit slash p with
  | Some (_, last) => last
  | None => p
  end.

(** [path.extname(p)]: from the last dot of the last portion to its end;
    empty when that portion has no dot, starts with its only dot, or is
    [..]. *)
Definition extname (p : string) : string :=
  let base := basename p in
  match rsplit dot base with
  | None => ""
  | Some (before, after) =>
      if String.eqb before "" then ""
      else if String.eqb base ".." then ""
      else String dot after
  end.

(** [s] without the suffix [suffix], when it ends with it. *)
Fixpoint strip_suffix (suffix s : string) : option string :=
  if String.eqb s suffix then Some EmptyString
  else
    match s with
    | EmptyString => None
    | String c s' =>
        match strip_suffix suffix s' with
        | Some r => Some (String c r)
        | None => None
        end
    end.

(** [path.basename(p, suffix)]: the last portion without [suffix]; the
    suffix stays when it is the whole portion; the whole path being the
    suffix gives the empty string. *)
Definition basename_suffix (p suffix : string) : string :=
  if negb (String.eqb suffix "") && Nat.leb (String.length suffix) (String.length p)
  then
    if String.eqb suffix p then ""
    else
      match strip_suffix suffix (basename p) with
      | Some EmptyString => basename p
      | Some stem => stem
      | None => basename p
      end
  else basename p.

(** [path.join(a, b)] for a directory and the name of one of its
    entries. *)
Definition join (a b : string) : string := a +:+ "/" +:+ b.

(** [s] without the prefix [prefix], when it starts with it. *)
Fixpoint strip_prefix (prefix s : string) : option string :=
  match prefix, s with
  | EmptyString, _ => Some s
  | String a prefix', String b s' =>
      if Ascii.eqb a b then strip_prefix prefix' s' else None
  | String _ _, EmptyString => None
  end.

(** [path.relative(from, to)] for a path [to] below the directory
    [from]. *)
Definition relative (from to : string) : string :=
  match strip_prefix (from +:+ "/") to with
  | Some rest => rest
  | None => to
  end.

End Path.

(** ** The world a run meets *)

(** A JavaScript [Error]; the program only reads its [message]. *)
Record Error := { message : string }.

(** How an awaited promise settles. *)
Inductive Settled (A : Type) :=
| Fulfilled (a : A)
| Rejected (error : Error).
Arguments Fulfilled {A} a.
Arguments Rejected {A} error.

(** A directory entry as [readdir(dir, { withFileTypes: true })] lists it:
    an entry for which [isDirectory()] is false, or a directory together
    with what listing it settles to. *)
#[local] Unset Elimination Schemes.
Inductive Dirent :=
| File (name : string)
| Directory (name : string) (listing : Settled (list Dirent)).
#[local] Set Elimination Schemes.

Definition dirent_name (file : Dirent) : string :=
  match file with
  | File name => name
  | Directory name _ => name
  end.

(** The parameters of [openai.audio.transcriptions.create]; a parameter
    that is [undefined] is [None]. *)
Record Request := {
  req_file : string;
  req_model : string;
  req_language : option string;
  req_prompt : option string
}.

(** [program.opts()]: [--model] and [--language] have default values, so
    they are always strings. *)
Record Options := {
  opt_model : string;
  opt_language : string;
  opt_prompt : option string;
  opt_debug : bool
}.

(** Everything outside the program that a run depends on. *)
Record World := {
  __dirname : string;
  OPENAI_API_KEY : option string;            (* process.env.OPENAI_API_KEY *)
  options : Options;
  client : Settled unit;                     (* new OpenAI({ apiKey }): returns, or throws *)
  mkdir : string -> Settled unit;            (* fsPromises.mkdir(p, { recursive: true }) *)
  source : Settled (list Dirent);            (* fsPromises.readdir(SOURCE_DIR, ...) *)
  create : Request -> Settled string;        (* the [text] of the transcription, or the provider's error *)
  writeFile : string -> Settled unit         (* whether writing to this path goes through *)
}.

(** ** Constants *)

Definition SOURCE_DIR (w : World) : string := Path.join (__dirname w) "source".
Definition OUTPUT_DIR (w : World) : string := Path.join (__dirname w) "transcriptions".

Definition MODELS : list (string * string) :=
  [ ("whisper-1", "OpenAI Whisper (most accurate)");
    ("whisper-1-quantized", "OpenAI Whisper (optimized)") ].

Definition SUPPORTED_FORMATS : list string :=
  [ ".mp3"; ".mp4"; ".mpeg"; ".mpga"; ".m4a"; ".wav"; ".webm" ].

(** [SUPPORTED_FORMATS.includes(path.extname(name).toLowerCase())] *)
Definition supported (name : string) : bool :=
  bool_decide (Js.toLowerCase (Path.extname name) ∈ SUPPORTED_FORMATS).

(** ** File discovery *)

Section ForOf.
Context {A : Type} (body : A -> Settled (list string)).

(** [for (const file of files) { ... audioFiles.push(...) }]: [body]
    gives what one iteration pushes; a rejection ends the loop. *)
Fixpoint for_of (files : list A) (audioFiles : list string)
  : Settled (list string) :=
  match files with
  | [] => Fulfilled audioFiles
  | file :: rest =>
      match body file with
      | Fulfilled pushed => for_of rest (audioFiles ++ pushed)
      | Rejected error => Rejected error
      end
  end.
End ForOf.

(** One iteration of the loop of [findAudioFiles(dir)]; the directory case
    is the recursive call [findAudioFiles(filePath)]. *)
Fixpoint visit (dir : string) (file : Dirent) : Settled (list string) :=
  let filePath := Path.join dir (dirent_name file) in
  match file with
  | Directory _ listing =>
      match listing with
      | Fulfilled files => for_of (visit filePath) files []
      | Rejected error => Rejected error
      end
  | File name =>
      if supported name then Fulfilled [filePath] else Fulfilled []
  end.

(** [findAudioFiles(dir)], where [listing] is what [readdir(dir)] settles
    to. *)
Definition findAudioFiles (dir : string) (listing : Settled (list Dirent))
  : Settled (list string) :=
  match listing with
  | Fulfilled files => for_of (visit dir) files []
  | Rejected error => Rejected error
  end.

(** ** Observable events *)

(** What the program prints; each message stands for the text built from
    the template given with it. *)
Inductive Message :=
| Rule                                        (* '='.repeat(50) *)
| Banner                                      (* 'Whisper Audio Transcription App' *)
| ApiKeyNotSet                                (* 'Error: OPENAI_API_KEY is not set in the .env file!' *)
| InvalidModel (model : string)               (* `Error: Invalid model: ${options.model}` *)
| AvailableModels                             (* 'Available models:' *)
| ModelEntry (id description : string)        (* `  - ${id}: ${description}` *)
| DebugInformation                            (* 'Debug information:' *)
| DebugModel (model : string) (description : Js.value)
                                              (* `  - Model: ${options.model} (${MODELS[options.model]})` *)
| DebugLanguage (language : string)           (* `  - Language: ${options.language}` *)
| DebugPrompt (prompt : string)               (* `  - Prompt: ${options.prompt || 'none'}` *)
| DebugSource (dir : string)                  (* `  - Source folder: ${SOURCE_DIR}` *)
| DebugOutput (dir : string)                  (* `  - Output folder: ${OUTPUT_DIR}` *)
| Searching                                   (* 'Searching for audio files...' *)
| Found (n : nat)                             (* `Found ${audioFiles.length} audio files` *)
| NoAudioFiles                                (* 'No audio files to process in the source folder.' *)
| SupportedFormats (formats : list string)    (* `Supported formats: ${SUPPORTED_FORMATS.join(', ')}` *)
| StartingProcessing                          (* '\nStarting processing...' *)
| Processing (i total : nat) (relativePath : string)
                                              (* `Processing (${i+1}/${audioFiles.length}): ${relativePath}` *)
| ErrorTranscribing (base : string)           (* `Error transcribing ${path.basename(filePath)}:` *)
| ErrorMessage (text : string)                (* error.message *)
| ErrorObject (error : Error)                 (* error *)
| TranscriptCompleted (base : string)         (* `Transcript completed: ${path.basename(outputFile)}` *)
| FailedToCreate (relativePath : string)      (* `Failed to create transcript: ${relativePath}` *)
| ProcessingCompleted                         (* 'Processing completed' *)
| TotalFiles (n : nat)                        (* `  - Total files: ${audioFiles.length}` *)
| Successful (n : nat)                        (* `  - Successful: ${successCount}` *)
| Failed (n : nat)                            (* `  - Failed: ${audioFiles.length - successCount}` *)
| AnErrorOccurred.                            (* 'An error occurred:' *)

Inductive Event :=
| console_log (m : Message)
| console_error (m : Message)
| spinner_start (m : Message)                 (* ora(text).start() *)
| spinner_succeed (m : Message)
| spinner_fail (m : Message)
| fs_mkdir (path : string)
| fs_readdir (dir : string)                   (* the discoverer starts on [dir] *)
| fs_createReadStream (path : string)
| transcriptions_create (request : Request)
| fs_writeFile (path data : string).

(** ** Computations

    A computation starts from the files of the output directory and gives
    how it completes, what it did on the way and the files it leaves. *)

Inductive Completion (A : Type) :=
| Normal (a : A)
| Throw (error : Error)
| Exit (code : nat).                          (* process.exit(code) *)
Arguments Normal {A} a.
Arguments Throw {A} error.
Arguments Exit {A} code.

Record Result (A : Type) := {
  completion : Completion A;
  trace : list Event;
  output : gmap string string
}.
Arguments completion {A} r.
Arguments trace {A} r.
Arguments output {A} r.

Definition Run (A : Type) : Type := gmap string string -> Result A.

Definition ret {A} (a : A) : Run A :=
  fun files => {| completion := Normal a; trace := []; output := files |}.

Definition bind {A B} (m : Run A) (k : A -> Run B) : Run B :=
  fun files =>
    let r := m files in
    match completion r with
    | Normal a =>
        let r' := k a (output r) in
        {| completion := completion r';
           trace := trace r ++ trace r';
           output := output r' |}
    | Throw error =>
        {| completion := Throw error; trace := trace r; output := output r |}
    | Exit code =>
        {| completion := Exit code; trace := trace r; output := output r |}
    end.

Notation "x <- m ;; k" := (bind m (fun x => k))
  (at level 100, m at next level, right associativity).
Notation "m ;; k" := (bind m (fun _ => k))
  (at level 100, right associativity).

Definition emit (e : Event) : Run unit :=
  fun files => {| completion := Normal tt; trace := [e]; output := files |}.

Definition throw {A} (error : Error) : Run A :=
  fun files => {| completion := Throw error; trace := []; output := files |}.

Definition process_exit {A} (code : nat) : Run A :=
  fun files => {| completion := Exit code; trace := []; output := files |}.

(** [await p] *)
Definition await {A} (p : Settled A) : Run A :=
  match p with
  | Fulfilled a => ret a
  | Rejected error => throw error
  end.

(** [try { body } catch (error) { handler }]; [process.exit] is not an
    exception and passes through. *)
Definition try_catch {A} (body : Run A) (handler : Error -> Run A) : Run A :=
  fun files =>
    let r := body files in
    match completion r with
    | Throw error =>
        let r' := handler error (output r) in
        {| completion := completion r';
           trace := trace r ++ trace r';
           output := output r' |}
    | _ => r
    end.

(** [if (cond) { body }] *)
Definition when (cond : bool) (body : Run unit) : Run unit :=
  if cond then body else ret tt.

Fixpoint forEach {A} (l : list A) (f : A -> Run unit) : Run unit :=
  match l with
  | [] => ret tt
  | x :: rest => f x ;; forEach rest f
  end.

(** [fsPromises.writeFile(path, data, 'utf-8')]: [data] becomes the whole
    content of the file, whether or not it existed. *)
Definition fsPromises_writeFile (w : World) (path data : string) : Run unit :=
  emit (fs_writeFile path data) ;;
  await (writeFile w path) ;;
  fun files =>
    {| completion := Normal tt; trace := []; output := <[path := data]> files |}.

Definition fsPromises_mkdir (w : World) (path : string) : Run unit :=
  emit (fs_mkdir path) ;;
  await (mkdir w path).

(** ** The program *)

(** The object passed to [openai.audio.transcriptions.create]. *)
Definition create_params (fileStream model language : string)
    (prompt : option string) : Request :=
  {| req_file := fileStream;
     req_model := model;
     req_language :=
       if negb (String.eqb language "auto") then Some language else None;
     req_prompt := prompt |}.

Section Program.
Variable w : World.

(** [transcribeAudio(filePath, model, language, prompt)]: the recognized
    text, or [null] (here [None]) when the call fails. *)
Definition transcribeAudio (filePath model language : string)
    (prompt : option string) : Run (option string) :=
  try_catch
    (emit (fs_createReadStream filePath) ;;
     let request := create_params filePath model language prompt in
     emit (transcriptions_create request) ;;
     text <- await (create w request) ;;
     ret (Some text))
    (fun error =>
       emit (console_error (ErrorTranscribing (Path.basename filePath))) ;;
       emit (console_error (ErrorMessage (message error))) ;;
       when (opt_debug (options w)) (emit (console_error (ErrorObject error))) ;;
       ret None).

(** [outputFile] of the loop of [main]. *)
Definition outputFile (audioFile : string) : string :=
  Path.join (OUTPUT_DIR w)
    (Path.basename_suffix audioFile (Path.extname audioFile) +:+ ".txt").

(** The body of the loop of [main] at index [i]; it returns the new
    value of [successCount]. *)
Definition iteration (audioFiles : list string) (i : nat)
    (audioFile : string) (successCount : nat) : Run nat :=
  let relativePath := Path.relative (SOURCE_DIR w) audioFile in
  emit (spinner_start (Processing (i + 1) (List.length audioFiles) relativePath)) ;;
  transcription <-
    transcribeAudio audioFile (opt_model (options w))
      (opt_language (options w)) (opt_prompt (options w)) ;;
  let otherwise : Run nat :=
    emit (spinner_fail (FailedToCreate relativePath)) ;;
    ret successCount in
  match transcription with
  | Some text =>
      if Js.truthy_string text then
        fsPromises_writeFile w (outputFile audioFile) text ;;
        emit (spinner_succeed
                (TranscriptCompleted (Path.basename (outputFile audioFile)))) ;;
        ret (successCount + 1)
      else otherwise
  | None => otherwise
  end.

(** [for (let i = 0; i < audioFiles.length; i++)], with [rest] the
    elements of [audioFiles] from index [i] on. *)
Fixpoint loop (audioFiles : list string) (i : nat) (rest : list string)
    (successCount : nat) : Run nat :=
  match rest with
  | [] => ret successCount
  | audioFile :: rest' =>
      successCount' <- iteration audioFiles i audioFile successCount ;;
      loop audioFiles (i + 1) rest' successCount'
  end.

Definition main : Run unit :=
  emit (console_log Rule) ;;
  emit (console_log Banner) ;;
  emit (console_log Rule) ;;
  (* Check API key *)
  when (negb (Js.truthy (OPENAI_API_KEY w)))
    (emit (console_error ApiKeyNotSet) ;;
     process_exit 1) ;;
  (* Check model *)
  when (negb (Js.truthy_value (Js.get MODELS (opt_model (options w)))))
    (emit (console_error (InvalidModel (opt_model (options w)))) ;;
     emit (console_log AvailableModels) ;;
     forEach MODELS
       (fun '(id, description) => emit (console_log (ModelEntry id description))) ;;
     process_exit 1) ;;
  (* Display debug information *)
  when (opt_debug (options w))
    (emit (console_log DebugInformation) ;;
     emit (console_log (DebugModel (opt_model (options w))
                          (Js.get MODELS (opt_model (options w))))) ;;
     emit (console_log (DebugLanguage (opt_language (options w)))) ;;
     emit (console_log (DebugPrompt
                          (if Js.truthy (opt_prompt (options w))
                           then default "" (opt_prompt (options w))
                           else "none"))) ;;
     emit (console_log (DebugSource (SOURCE_DIR w))) ;;
     emit (console_log (DebugOutput (OUTPUT_DIR w)))) ;;
  try_catch
    (fsPromises_mkdir w (SOURCE_DIR w) ;;
     fsPromises_mkdir w (OUTPUT_DIR w) ;;
     (* Search for audio files *)
     emit (spinner_start Searching) ;;
     emit (fs_readdir (SOURCE_DIR w)) ;;
     audioFiles <- await (findAudioFiles (SOURCE_DIR w) (source w)) ;;
     emit (spinner_succeed (Found (List.length audioFiles))) ;;
     when (List.length audioFiles =? 0)%nat
       (emit (console_log NoAudioFiles) ;;
        emit (console_log (SupportedFormats SUPPORTED_FORMATS)) ;;
        process_exit 0) ;;
     (* Processing *)
     emit (console_log StartingProcessing) ;;
     successCount <- loop audioFiles 0 audioFiles 0 ;;
     (* Summary *)
     emit (console_log Rule) ;;
     emit (console_log ProcessingCompleted) ;;
     emit (console_log (TotalFiles (List.length audioFiles))) ;;
     emit (console_log (Successful successCount)) ;;
     when (successCount <? List.length audioFiles)%nat
       (emit (console_log (Failed (List.length audioFiles - successCount)))) ;;
     emit (console_log Rule))
    (fun error =>
       emit (console_error AnErrorOccurred) ;;
       emit (console_error (ErrorMessage (message error))) ;;
       when (opt_debug (options w)) (emit (console_error (ErrorObject error))) ;;
       process_exit 1).

(** The module from top to bottom: the client is built, then [main()]
    is called. *)
Definition index_js : Run unit :=
  await (client w) ;;
  main.

End Program.

(** The exit status of the process: the code given to [process.exit], 0
    when [main] returns, 1 for an exception nothing caught. *)
Definition exit_status {A} (c : Completion A) : nat :=
  match c with
  | Normal _ => 0
  | Throw _ => 1
  | Exit code => code
  end.

(** ** Vocabulary of the statements *)

Section Vocabulary.
Variable w : World.

(** What the provider answers for [audioFile] in this run. *)
Definition answer (audioFile : string) : Settled string :=
  create w (create_params audioFile (opt_model (options w))
              (opt_language (options w)) (opt_prompt (options w))).

(** The text the orchestrator accepts for [audioFile]: the call is
    fulfilled and the text is not empty. *)
Definition transcript (audioFile : string) : option string :=
  match answer audioFile with
  | Fulfilled text => if Js.truthy_string text then Some text else None
  | Rejected _ => None
  end.

(** [audioFile] is transcribed successfully. *)
Definition succeeds (audioFile : string) : bool :=
  bool_decide (is_Some (transcript audioFile)).

(** Both checks at the start of [main] pass. *)
Definition passes_checks : Prop :=
  Js.truthy (OPENAI_API_KEY w) = true ∧
  Js.truthy_value (Js.get MODELS (opt_model (options w))) = true.

(** Both directories can be created and discovery settles to
    [audioFiles]. *)
Definition discovers (audioFiles : list string) : Prop :=
  mkdir w (SOURCE_DIR w) = Fulfilled tt ∧
  mkdir w (OUTPUT_DIR w) = Fulfilled tt ∧
  findAudioFiles (SOURCE_DIR w) (source w) = Fulfilled audioFiles.

(** Every transcript of [audioFiles] can be written. *)
Definition writable (audioFiles : list string) : Prop :=
  Forall (fun audioFile =>
            succeeds audioFile = true ->
            writeFile w (outputFile w audioFile) = Fulfilled tt) audioFiles.

(** The output files after the transcripts of [audioFiles] are written,
    in order. *)
Fixpoint written (audioFiles : list string) (files : gmap string string)
  : gmap string string :=
  match audioFiles with
  | [] => files
  | audioFile :: rest =>
      match transcript audioFile with
      | Some text => written rest (<[outputFile w audioFile := text]> files)
      | None => written rest files
      end
  end.

(** What the per-file error handler of [transcribeAudio] prints. *)
Definition failure_report (filePath : string) (error : Error) : list Event :=
  console_error (ErrorTranscribing (Path.basename filePath))
  :: console_error (ErrorMessage (message error))
  :: (if opt_debug (options w) then [console_error (ErrorObject error)] else []).

(** The events of one iteration of the loop. *)
Definition iteration_trace (total i : nat) (audioFile : string) : list Event :=
  let relativePath := Path.relative (SOURCE_DIR w) audioFile in
  spinner_start (Processing (i + 1) total relativePath)
  :: fs_createReadStream audioFile
  :: transcriptions_create
       (create_params audioFile (opt_model (options w))
          (opt_language (options w)) (opt_prompt (options w)))
  :: match answer audioFile with
     | Fulfilled text =>
         if Js.truthy_string text then
           [ fs_writeFile (outputFile w audioFile) text;
             spinner_succeed
               (TranscriptCompleted (Path.basename (outputFile w audioFile))) ]
         else [ spinner_fail (FailedToCreate relativePath) ]
     | Rejected error =>
         failure_report audioFile error
         ++ [ spinner_fail (FailedToCreate relativePath) ]
     end.

Fixpoint loop_trace (total i : nat) (rest : list string) : list Event :=
  match rest with
  | [] => []
  | audioFile :: rest' =>
      iteration_trace total i audioFile ++ loop_trace total (i + 1) rest'
  end.

(** What [main] prints before it touches the file system, once both
    checks have passed. *)
Definition preamble : list Event :=
  [ console_log Rule; console_log Banner; console_log Rule ]
  ++ (if opt_debug (options w) then
        [ console_log DebugInformation;
          console_log (DebugModel (opt_model (options w))
                         (Js.get MODELS (opt_model (options w))));
          console_log (DebugLanguage (opt_language (options w)));
          console_log (DebugPrompt
                         (if Js.truthy (opt_prompt (options w))
                          then default "" (opt_prompt (options w))
                          else "none"));
          console_log (DebugSource (SOURCE_DIR w));
          console_log (DebugOutput (OUTPUT_DIR w)) ]
      else [])
  ++ [ fs_mkdir (SOURCE_DIR w); fs_mkdir (OUTPUT_DIR w);
       spinner_start Searching; fs_readdir (SOURCE_DIR w) ].

(** The summary block at the end of [main]. *)
Definition summary (total successCount : nat) : list Event :=
  [ console_log Rule; console_log ProcessingCompleted;
    console_log (TotalFiles total); console_log (Successful successCount) ]
  ++ (if (successCount <? total)%nat
      then [ console_log (Failed (total - successCount)) ] else [])
  ++ [ console_log Rule ].

End Vocabulary.

(** ** Outcomes of a run *)

(** [r] with the events [t] in front of its trace. *)
Definition prepend {A} (t : list Event) (r : Result A) : Result A :=
  {| completion := completion r; trace := t ++ trace r; output := output r |}.

Section Outcome.
Variable w : World.

(** The number of files of [audioFiles] transcribed successfully. *)
Definition successes (audioFiles : list string) : nat :=
  List.length (filter (fun f => succeeds w f = true) audioFiles).

(** The files of [audioFiles] transcribed successfully, in order. *)
Definition transcribed (audioFiles : list string) : list string :=
  filter (fun f => succeeds w f = true) audioFiles.

(** What the part of [main] inside [try] gives after the directories are
    created and the search has started, on a run that discovers
    [audioFiles] and can write every transcript. *)
Definition completed (audioFiles : list string) (files : gmap string string)
  : Result unit :=
  match audioFiles with
  | [] =>
      {| completion := Exit 0;
         trace := [ spinner_succeed (Found 0); console_log NoAudioFiles;
                    console_log (SupportedFormats SUPPORTED_FORMATS) ];
         output := files |}
  | _ :: _ =>
      {| completion := Normal tt;
         trace := [ spinner_succeed (Found (List.length audioFiles));
                    console_log StartingProcessing ]
                  ++ loop_trace w (List.length audioFiles) 0 audioFiles
                  ++ summary (List.length audioFiles) (successes audioFiles);
         output := written w audioFiles files |}
  end.

End Outcome.

(** ** Directory trees *)

(** [name] holds no slash, as the name of a directory entry does. *)
Definition slashless (name : string) : Prop := Path.rsplit Path.slash name = None.

#[global] Instance slashless_dec name : Decision (slashless name).
Proof. unfold slashless. apply _. Defined.

(** The entries below [dir] that are not directories, at any depth, in
    listing order: the path of each and its name. *)
Fixpoint entries (dir : string) (file : Dirent) : list (string * string) :=
  match file with
  | File name => [ (Path.join dir name, name) ]
  | Directory name (Fulfilled files) =>
      flat_map (entries (Path.join dir name)) files
  | Directory _ (Rejected _) => []
  end.

Definition tree_files (dir : string) (files : list Dirent)
  : list (string * string) :=
  flat_map (entries dir) files.

(** Every directory of the tree can be listed and no name holds a slash. *)
Fixpoint well_formed (file : Dirent) : bool :=
  match file with
  | File name => bool_decide (slashless name)
  | Directory name (Fulfilled files) =>
      bool_decide (slashless name) && forallb well_formed files
  | Directory _ (Rejected _) => false
  end.

(** The entries of the tree with a supported extension, and the others. *)
Definition with_supported (dir : string) (files : list Dirent)
  : list (string * string) :=
  filter (fun e => supported e.2 = true) (tree_files dir files).

Definition with_unsupported (dir : string) (files : list Dirent)
  : list (string * string) :=
  filter (fun e => supported e.2 = false) (tree_files dir files).

(** ** Reading traces *)

(** The requests sent to the provider, in order. *)
Fixpoint calls (t : list Event) : list Request :=
  match t with
  | [] => []
  | transcriptions_create request :: t' => request :: calls t'
  | _ :: t' => calls t'
  end.

(** A line of the count summary. *)
Definition is_count (e : Event) : bool :=
  match e with
  | console_log (TotalFiles _) | console_log (Successful _)
  | console_log (Failed _) => true
  | _ => false
  end.

(** Printing, as opposed to touching the file system or the provider. *)
Definition is_console (e : Event) : bool :=
  match e with
  | console_log _ | console_error _
  | spinner_start _ | spinner_succeed _ | spinner_fail _ => true
  | _ => false
  end.

Definition is_write (e : Event) : bool :=
  match e with
  | fs_writeFile _ _ => true
  | _ => false
  end.

(** [P] holds of every event of every run of [m]. *)
Definition always {A} (P : Event -> Prop) (m : Run A) : Prop :=
  forall files, Forall P (trace (m files)).

(** The rule of the language parameter, as a property of events. *)
Definition language_rule (language : string) (e : Event) : Prop :=
  match e with
  | transcriptions_create request =>
      (language = "auto" -> req_language request = None) ∧
      (language <> "auto" -> req_language request = Some language)
  | _ => True
  end.

(** ** Deciding equality of events *)

#[global] Instance Error_eq_dec : EqDecision Error.
Proof. solve_decision. Defined.
#[global] Instance value_eq_dec : EqDecision Js.value.
Proof. solve_decision. Defined.
#[global] Instance Request_eq_dec : EqDecision Request.
Proof. solve_decision. Defined.
#[global] Instance Message_eq_dec : EqDecision Message.
Proof. solve_decision. Defined.
#[global] Instance Event_eq_dec : EqDecision Event.
Proof. solve_decision. Defined.

(** ** Sample worlds *)

(** A world in [/app] where every file system operation goes through. *)
Definition sample_world (key : option string) (model language : string)
    (files : list Dirent) (provider : Request -> Settled string) : World :=
  {| __dirname := "/app";
     OPENAI_API_KEY := key;
     options := {| opt_model := model; opt_language := language;
                   opt_prompt := None; opt_debug := false |};
     client := match key with
               | Some _ => Fulfilled tt
               | None => Rejected {| message := "The OPENAI_API_KEY environment variable is missing or empty" |}
               end;
     mkdir := fun _ => Fulfilled tt;
     source := Fulfilled files;
     create := provider;
     writeFile := fun _ => Fulfilled tt |}.

(** A provider that recognizes [hello] in every [.wav] file, an empty text
    in every [.m4a] file, and rejects the others. *)
Definition sample_provider (request : Request) : Settled string :=
  if String.eqb (Path.extname (req_file request)) ".wav" then Fulfilled "hello"
  else if String.eqb (Path.extname (req_file request)) ".m4a" then Fulfilled ""
  else Rejected {| message := "Connection error." |}.

(** The same provider, which moreover rejects every model that is not a
    key of [MODELS]. *)
Definition strict_provider (request : Request) : Settled string :=
  if bool_decide (is_Some (Js.own MODELS (req_model request)))
  then sample_provider request
  else Rejected {| message := "The model does not exist" |}.

(** The scenario of the specification: [a.wav] is recognized, [b.mp3]
    fails. *)
Definition scenario : World :=
  sample_world (Some "sk-test") "whisper-1" "auto"
    [ File "a.wav"; File "b.mp3" ] sample_provider.

(** Both files of this world are rejected by the provider. *)
Definition all_fail : World :=
  sample_world (Some "sk-test") "whisper-1" "auto"
    [ File "b.mp3"; Directory "talks" (Fulfilled [ File "c.webm" ]) ]
    sample_provider.

(** Two directories with a file of the same name, both recognized. *)
Definition same_name : World :=
  sample_world (Some "sk-test") "whisper-1" "auto"
    [ Directory "monday" (Fulfilled [ File "meeting.wav" ]);
      Directory "tuesday" (Fulfilled [ File "meeting.wav" ]) ]
    sample_provider.

(** A recording two levels down, in upper case. *)
Definition nested : World :=
  sample_world (Some "sk-test") "whisper-1" "auto"
    [ Directory "2024" (Fulfilled [ Directory "may" (Fulfilled [ File "Talk.One.WAV" ]) ]) ]
    (fun _ => Fulfilled "hello").

(** A tree with supported and unsupported names at three depths. *)
Definition sample_tree : list Dirent :=
  [ File "a.wav"; File "notes.txt";
    Directory "sub"
      (Fulfilled [ File "B.MP3"; File ".mp3";
                   Directory "deep" (Fulfilled [ File "c.tar.webm"; File "d.flac" ]) ]);
    Directory "empty" (Fulfilled []) ].

(** ** The two halves of the [try] statement of [main] *)

Section TryCatch.
Variable w : World.

(** The block of [try] in [main]. *)
Definition main_try : Run unit :=
  fsPromises_mkdir w (SOURCE_DIR w) ;;
  fsPromises_mkdir w (OUTPUT_DIR w) ;;
  emit (spinner_start Searching) ;;
  emit (fs_readdir (SOURCE_DIR w)) ;;
  audioFiles <- await (findAudioFiles (SOURCE_DIR w) (source w)) ;;
  emit (spinner_succeed (Found (List.length audioFiles))) ;;
  when (List.length audioFiles =? 0)%nat
    (emit (console_log NoAudioFiles) ;;
     emit (console_log (SupportedFormats SUPPORTED_FORMATS)) ;;
     process_exit 0) ;;
  emit (console_log StartingProcessing) ;;
  successCount <- loop w audioFiles 0 audioFiles 0 ;;
  emit (console_log Rule) ;;
  emit (console_log ProcessingCompleted) ;;
  emit (console_log (TotalFiles (List.length audioFiles))) ;;
  emit (console_log (Successful successCount)) ;;
  when (successCount <? List.length audioFiles)%nat
    (emit (console_log (Failed (List.length audioFiles - successCount)))) ;;
  emit (console_log Rule).

(** The block of [catch] in [main]. *)
Definition main_catch (error : Error) : Run unit :=
  emit (console_error AnErrorOccurred) ;;
  emit (console_error (ErrorMessage (message error))) ;;
  when (opt_debug (options w)) (emit (console_error (ErrorObject error))) ;;
  process_exit 1.

(** What [main] prints before [try], once both checks have passed. *)
Definition opening : list Event :=
  [ console_log Rule; console_log Banner; console_log Rule ]
  ++ (if opt_debug (options w) then
        [ console_log DebugInformation;
          console_log (DebugModel (opt_model (options w))
                         (Js.get MODELS (opt_model (options w))));
          console_log (DebugLanguage (opt_language (options w)));
          console_log (DebugPrompt
                         (if Js.truthy (opt_prompt (options w))
                          then default "" (opt_prompt (options w))
                          else "none"));
          console_log (DebugSource (SOURCE_DIR w));
          console_log (DebugOutput (OUTPUT_DIR w)) ]
      else []).

(** What the block of [catch] prints. *)
Definition fatal_report (error : Error) : list Event :=
  console_error AnErrorOccurred
  :: console_error (ErrorMessage (message error))
  :: (if opt_debug (options w) then [ console_error (ErrorObject error) ] else []).

End TryCatch.

(** ** Worlds where the file system fails *)

(** A world in [/app] with the key, the model [whisper-1] and the sample
    provider, where the file system behaves as given. *)
Definition failing_world (mkdir_result : string -> Settled unit)
    (listing : Settled (list Dirent))
    (writeFile_result : string -> Settled unit) : World :=
  {| __dirname := "/app";
     OPENAI_API_KEY := Some "sk-test";
     options := {| opt_model := "whisper-1"; opt_language := "auto";
                   opt_prompt := None; opt_debug := false |};
     client := Fulfilled tt;
     mkdir := mkdir_result;
     source := listing;
     create := sample_provider;
     writeFile := writeFile_result |}.

Definition EACCES : Error := {| message := "EACCES: permission denied" |}.
Definition ENOSPC : Error := {| message := "ENOSPC: no space left on device" |}.

(** The output directory cannot be created. *)
Definition no_output_directory : World :=
  failing_world
    (fun path => if String.eqb path "/app/transcriptions" then Rejected EACCES
                 else Fulfilled tt)
    (Fulfilled [ File "a.wav" ]) (fun _ => Fulfilled tt).

(** The second subdirectory cannot be listed. *)
Definition locked_directory : World :=
  failing_world (fun _ => Fulfilled tt)
    (Fulfilled [ File "a.wav"; Directory "open" (Fulfilled [ File "b.wav" ]);
                 Directory "locked" (Rejected EACCES); File "c.wav" ])
    (fun _ => Fulfilled tt).


(** ** How a computation may complete *)

(** A completion that is a return, an exit with status 0 or 1, or, when
    [throws] allows it, an exception. *)
Definition bounded {A} (throws : bool) (c : Completion A) : Prop :=
  match c with
  | Normal _ => True
  | Throw _ => throws = true
  | Exit code => code <= 1
  end.

(** Every run of [m] completes that way. *)
Definition ends {A} (throws : bool) (m : Run A) : Prop :=
  forall files, bounded throws (completion (m files)).

(** The file named by [path] is directly in the output directory and its
    name ends in [.txt]. *)
Definition flat_txt (w : World) (path : string) : Prop :=
  ∃ stem,
    path = OUTPUT_DIR w +:+ "/" +:+ stem +:+ ".txt" ∧
    slashless (stem +:+ ".txt").

(** What a write may be: a text that is not empty, to a [.txt] file
    directly in the output directory. *)
Definition confined (w : World) (e : Event) : Prop :=
  match e with
  | fs_writeFile path data => flat_txt w path ∧ data <> ""
  | _ => True
  end.

(** What a request carries: the model and the prompt of the options. *)
Definition as_configured (w : World) (e : Event) : Prop :=
  match e with
  | transcriptions_create request =>
      req_model request = opt_model (options w) ∧
      req_prompt request = opt_prompt (options w)
  | _ => True
  end.

(** What a request is about: a file that discovery returned. *)
Definition from_discovery (w : World) (e : Event) : Prop :=
  match e with
  | transcriptions_create request =>
      ∃ audioFiles,
        findAudioFiles (SOURCE_DIR w) (source w) = Fulfilled audioFiles ∧
        req_file request ∈ audioFiles
  | fs_createReadStream path =>
      ∃ audioFiles,
        findAudioFiles (SOURCE_DIR w) (source w) = Fulfilled audioFiles ∧
        path ∈ audioFiles
  | _ => True
  end.

(** ** The debug option *)

(** [w] with [--debug] given or not. *)
Definition with_debug (debug : bool) (w : World) : World :=
  {| __dirname := __dirname w;
     OPENAI_API_KEY := OPENAI_API_KEY w;
     options := {| opt_model := opt_model (options w);
                   opt_language := opt_language (options w);
                   opt_prompt := opt_prompt (options w);
                   opt_debug := debug |};
     client := client w;
     mkdir := mkdir w;
     source := source w;
     create := create w;
     writeFile := writeFile w |}.

(** The lines that only [--debug] prints. *)
Definition debug_only (e : Event) : bool :=
  match e with
  | console_log DebugInformation | console_log (DebugModel _ _)
  | console_log (DebugLanguage _) | console_log (DebugPrompt _)
  | console_log (DebugSource _) | console_log (DebugOutput _)
  | console_error (ErrorObject _) => true
  | _ => false
  end.

(** [t] without the lines that only [--debug] prints. *)
Definition without_debug (t : list Event) : list Event :=
  filter (fun e => debug_only e = false) t.

(** [verbose] does what [quiet] does and prints debug lines on top. *)
Definition only_more_output {A} (verbose quiet : Run A) : Prop :=
  forall files,
    completion (verbose files) = completion (quiet files) ∧
    output (verbose files) = output (quiet files) ∧
    without_debug (trace (verbose files)) = trace (quiet files).

(** ** Directories that cannot be listed *)

(** The errors of the directories of a tree that cannot be listed, in the
    order discovery walks the tree. *)
Fixpoint unreadable (file : Dirent) : list Error :=
  match file with
  | File _ => []
  | Directory _ (Fulfilled files) => flat_map unreadable files
  | Directory _ (Rejected error) => [ error ]
  end.

(** A tree with a directory that cannot be listed between readable
    ones. *)
Definition locked_tree : list Dirent :=
  [ File "a.wav"; Directory "open" (Fulfilled [ File "b.wav" ]);
    Directory "locked" (Rejected EACCES); File "c.wav";
    Directory "late" (Rejected ENOSPC) ].

(** ** Files a computation leaves alone *)

(** No run of [m] changes, creates or removes the file at [path]. *)
Definition untouched {A} (path : string) (m : Run A) : Prop :=
  forall files, output (m files) !! path = files !! path.

(** Three recordings, the first and the last with the same base name. *)
Definition two_takes : World :=
  sample_world (Some "sk-test") "whisper-1" "auto"
    [ File "take.wav"; File "other.wav"; File "take.WAV" ]
    (fun request =>
       Fulfilled (if String.eqb (Path.extname (req_file request)) ".wav"
                  then "first" else "second")).

(** ** Names in a directory *)

(** No name holds a slash, every directory can be listed, and no two
    entries of a directory have the same name. *)
Fixpoint tidy (file : Dirent) : bool :=
  match file with
  | File name => bool_decide (slashless name)
  | Directory name (Fulfilled files) =>
      bool_decide (slashless name)
      && bool_decide (NoDup (dirent_name <$> files))
      && forallb tidy files
  | Directory _ (Rejected _) => false
  end.

(** The lines that announce the files, one per iteration. *)
Definition is_progress (e : Event) : bool :=
  match e with
  | spinner_start (Processing _ _ _) => true
  | _ => false
  end.

(** * Properties *)

(** ** Laws of computations *)

Section Laws.
Context {A B : Type}.
Implicit Types (files : gmap string string) (t : list Event).

Lemma prepend_nil (r : Result A) : prepend [] r = r.
Proof. by destruct r. Qed.

Lemma prepend_prepend t1 t2 (r : Result A) :
  prepend t1 (prepend t2 r) = prepend (t1 ++ t2) r.
Proof. unfold prepend. cbn. by rewrite app_assoc. Qed.

Lemma bind_ret (a : A) (k : A -> Run B) files : bind (ret a) k files = k a files.
Proof. unfold bind, ret. cbn. by destruct (k a files). Qed.

Lemma bind_emit e (k : unit -> Run B) files :
  bind (emit e) k files = prepend [e] (k tt files).
Proof. reflexivity. Qed.

Lemma bind_exit code (k : A -> Run B) files :
  bind (process_exit code) k files =
  {| completion := Exit code; trace := []; output := files |}.
Proof. reflexivity. Qed.

Lemma bind_throw error (k : A -> Run B) files :
  bind (throw error) k files =
  {| completion := Throw error; trace := []; output := files |}.
Proof. reflexivity. Qed.

Lemma bind_await_fulfilled (a : A) (k : A -> Run B) files :
  bind (await (Fulfilled a)) k files = k a files.
Proof. apply bind_ret. Qed.

(** A first part that is known to return. *)
Lemma bind_normal (m : Run A) (k : A -> Run B) files a t files' :
  m files = {| completion := Normal a; trace := t; output := files' |} ->
  bind m k files = prepend t (k a files').
Proof. intros Hm. unfold bind. rewrite Hm. reflexivity. Qed.

Lemma bind_when_false (body : Run unit) (k : unit -> Run B) files :
  bind (when false body) k files = k tt files.
Proof. unfold bind, when, ret. cbn. by destruct (k tt files). Qed.

Lemma bind_when_true (body : Run unit) (k : unit -> Run B) files :
  bind (when true body) k files = bind body k files.
Proof. reflexivity. Qed.

Lemma try_catch_through (body : Run A) handler files :
  (forall error, completion (body files) <> Throw error) ->
  try_catch body handler files = body files.
Proof.
  intros Hno. unfold try_catch.
  destruct (completion (body files)) eqn:Hc; try done.
  by destruct (Hno error).
Qed.

End Laws.

Lemma bind_assoc {A B C} (m : Run A) (k1 : A -> Run B) (k2 : B -> Run C) files :
  bind (bind m k1) k2 files = bind m (fun a => bind (k1 a) k2) files.
Proof.
  unfold bind. destruct (m files) as [[a|error|code] t files']; cbn; try done.
  destruct (k1 a files') as [[b|error|code] t' files'']; cbn; try done.
  by rewrite app_assoc.
Qed.

(** ** How the pieces run *)

Section Runs.
Variable w : World.

Lemma transcribeAudio_run filePath model language prompt files :
  transcribeAudio w filePath model language prompt files =
  let request := create_params filePath model language prompt in
  {| completion :=
       Normal (match create w request with
               | Fulfilled text => Some text
               | Rejected _ => None
               end);
     trace :=
       fs_createReadStream filePath :: transcriptions_create request
       :: match create w request with
          | Fulfilled _ => []
          | Rejected error => failure_report w filePath error
          end;
     output := files |}.
Proof.
  unfold transcribeAudio, try_catch, bind, emit, await, failure_report, when.
  cbn. destruct (create w _) as [text|error]; cbn.
  - reflexivity.
  - destruct (opt_debug (options w)); reflexivity.
Qed.

Lemma iteration_run audioFiles i audioFile successCount files :
  (succeeds w audioFile = true ->
   writeFile w (outputFile w audioFile) = Fulfilled tt) ->
  iteration w audioFiles i audioFile successCount files =
  {| completion :=
       Normal (if succeeds w audioFile then successCount + 1 else successCount);
     trace := iteration_trace w (List.length audioFiles) i audioFile;
     output := written w [audioFile] files |}.
Proof.
  intros Hwrite.
  unfold iteration, bind at 1 2. cbn [emit completion trace output].
  rewrite transcribeAudio_run. cbn [completion trace output].
  unfold iteration_trace, succeeds, transcript, answer in *. cbn [written].
  unfold transcript, answer.
  destruct (create w _) as [text|error]; cbn.
  - destruct (Js.truthy_string text) eqn:Htext; cbn.
    + unfold fsPromises_writeFile, bind, emit. cbn.
      rewrite Hwrite by (apply bool_decide_eq_true; eauto). reflexivity.
    + reflexivity.
  - reflexivity.
Qed.

Lemma written_app l1 l2 files :
  written w (l1 ++ l2) files = written w l2 (written w l1 files).
Proof.
  revert files. induction l1 as [|f l1 IH]; intros files; cbn; [done|].
  destruct (transcript w f); apply IH.
Qed.

Lemma loop_run audioFiles i rest successCount files :
  writable w rest ->
  loop w audioFiles i rest successCount files =
  {| completion :=
       Normal (successCount + List.length (filter (fun f => succeeds w f = true) rest));
     trace := loop_trace w (List.length audioFiles) i rest;
     output := written w rest files |}.
Proof.
  revert i successCount files.
  induction rest as [|audioFile rest IH]; intros i successCount files Hw.
  - cbn. unfold ret. by rewrite Nat.add_0_r.
  - apply Forall_cons in Hw as [Hhead Hrest].
    cbn [loop]. unfold bind. rewrite iteration_run by done.
    cbn [completion trace output]. rewrite IH by done.
    cbn [completion trace output loop_trace]. f_equal.
    + f_equal. rewrite filter_cons.
      destruct (succeeds w audioFile) eqn:Hs.
      * rewrite decide_True by done. cbn. lia.
      * rewrite decide_False by done. done.
    + cbn [written]. unfold succeeds, transcript in *.
      destruct (answer w audioFile) as [text|]; [|done].
      destruct (Js.truthy_string text); done.
Qed.

Lemma successes_le audioFiles :
  successes w audioFiles <= List.length audioFiles.
Proof. apply length_filter. Qed.

Lemma completed_nonempty audioFiles files :
  audioFiles <> [] ->
  completed w audioFiles files =
  {| completion := Normal tt;
     trace := [ spinner_succeed (Found (List.length audioFiles));
                console_log StartingProcessing ]
              ++ loop_trace w (List.length audioFiles) 0 audioFiles
              ++ summary (List.length audioFiles) (successes w audioFiles);
     output := written w audioFiles files |}.
Proof. by destruct audioFiles. Qed.

Lemma bind_mkdir {B} path (k : unit -> Run B) files :
  mkdir w path = Fulfilled tt ->
  bind (fsPromises_mkdir w path) k files = prepend [fs_mkdir path] (k tt files).
Proof.
  intros Hok. unfold fsPromises_mkdir.
  by rewrite bind_assoc, bind_emit, Hok, bind_await_fulfilled.
Qed.

Lemma main_run audioFiles files :
  passes_checks w -> discovers w audioFiles -> writable w audioFiles ->
  main w files = prepend (preamble w) (completed w audioFiles files).
Proof.
  intros [Hkey Hmodel] (Hsrc & Hout & Hfind) Hwrite.
  unfold main, preamble. rewrite Hkey, Hmodel. cbn [negb].
  rewrite !bind_emit, bind_when_false, bind_when_false, !prepend_prepend.
  cbn [app].
  lazymatch goal with
  | |- context [try_catch ?body ?handler] =>
      assert (Hbody : body files =
                      prepend [ fs_mkdir (SOURCE_DIR w); fs_mkdir (OUTPUT_DIR w);
                                spinner_start Searching; fs_readdir (SOURCE_DIR w) ]
                        (completed w audioFiles files));
      [| assert (Htry : try_catch body handler files = body files);
         [ apply try_catch_through; rewrite Hbody; by destruct audioFiles |] ]
  end.
  - rewrite !bind_mkdir by done.
    rewrite bind_emit, bind_emit, Hfind, bind_await_fulfilled.
    rewrite !prepend_prepend. cbn [app]. f_equal. rewrite bind_emit.
    destruct audioFiles as [|f rest].
    + cbn [List.length Nat.eqb]. rewrite bind_when_true.
      rewrite bind_assoc, bind_emit, bind_assoc, bind_emit, bind_exit.
      reflexivity.
    + remember (f :: rest) as audioFiles eqn:Heq.
      replace (List.length audioFiles =? 0)%nat with false
        by (by rewrite Heq).
      rewrite bind_when_false, bind_emit.
      erewrite bind_normal by (by apply loop_run).
      rewrite !bind_emit, !prepend_prepend.
      rewrite completed_nonempty by (by rewrite Heq).
      unfold summary. cbn [Nat.add]. fold (successes w audioFiles).
      destruct (successes w audioFiles <? List.length audioFiles)%nat.
      * rewrite bind_when_true, bind_emit, prepend_prepend.
        unfold prepend, emit. cbn [completion trace output].
        f_equal. rewrite <- !app_assoc. reflexivity.
      * rewrite bind_when_false.
        unfold prepend, emit. cbn [completion trace output].
        f_equal. rewrite <- !app_assoc. reflexivity.
  - destruct (opt_debug (options w)).
    + rewrite bind_when_true.
      do 5 rewrite bind_assoc, bind_emit. rewrite bind_emit.
      rewrite Htry, Hbody, !prepend_prepend. reflexivity.
    + rewrite bind_when_false.
      rewrite Htry, Hbody, !prepend_prepend. reflexivity.
Qed.

End Runs.

(** ** Paths built by discovery *)

Section Paths.
Import Path.

Lemma rsplit_app sep a b :
  rsplit sep b = None -> rsplit sep (a +:+ String sep b) = Some (a, b).
Proof.
  intros Hb. induction a as [|c a IH].
  - change (rsplit sep (String sep b) = Some (EmptyString, b)).
    cbn [rsplit]. rewrite Hb. by rewrite Ascii.eqb_refl.
  - change (rsplit sep (String c (a +:+ String sep b))
            = Some (String c a, b)).
    cbn [rsplit]. by rewrite IH.
Qed.

Lemma rsplit_Some sep s a b :
  rsplit sep s = Some (a, b) -> s = a +:+ String sep b ∧ rsplit sep b = None.
Proof.
  revert a. induction s as [|c s IH]; intros a; cbn; [done|].
  destruct (rsplit sep s) as [[a' b']|] eqn:Hs.
  - intros [= <- <-]. destruct (IH a' eq_refl) as [-> Hb]. done.
  - destruct (Ascii.eqb c sep) eqn:Hc; [|done].
    apply Ascii.eqb_eq in Hc as ->. intros [= <- <-]. done.
Qed.

Lemma basename_join dir name :
  slashless name -> basename (join dir name) = name.
Proof.
  intros Hn. unfold basename, join, slashless, slash in *.
  change (dir +:+ "/" +:+ name) with (dir +:+ String "/" name).
  by rewrite rsplit_app.
Qed.

Lemma basename_slashless name : slashless name -> basename name = name.
Proof. intros Hn. unfold basename. by rewrite Hn. Qed.

Lemma extname_join dir name :
  slashless name -> extname (join dir name) = extname name.
Proof.
  intros Hn. unfold extname.
  by rewrite basename_join, basename_slashless.
Qed.

Lemma length_app_string a b :
  String.length (a +:+ b) = String.length a + String.length b.
Proof.
  induction a as [|c a IH]; [done|].
  change (S (String.length (a +:+ b)) = S (String.length a + String.length b)).
  by rewrite IH.
Qed.

Lemma strip_suffix_app suffix a : strip_suffix suffix (a +:+ suffix) = Some a.
Proof.
  induction a as [|c a IH].
  - change (strip_suffix suffix suffix = Some EmptyString).
    destruct suffix; cbn [strip_suffix]; by rewrite String.eqb_refl.
  - change (strip_suffix suffix (String c (a +:+ suffix)) = Some (String c a)).
    cbn [strip_suffix].
    destruct (String.eqb (String c (a +:+ suffix)) suffix) eqn:Heq.
    + apply String.eqb_eq in Heq. apply (f_equal String.length) in Heq.
      cbn [String.length] in Heq. rewrite length_app_string in Heq. lia.
    + by rewrite IH.
Qed.

(** The extension of a supported name is not empty. *)
Lemma supported_extname name : supported name = true -> extname name <> "".
Proof.
  unfold supported. intros Hs Hext. rewrite Hext in Hs. by vm_compute in Hs.
Qed.

(** A name with an extension is a stem that is not empty, followed by
    the extension. *)
Lemma extname_split name :
  slashless name -> extname name <> "" ->
  ∃ stem, stem <> "" ∧ name = stem +:+ extname name.
Proof.
  intros Hn. unfold extname. rewrite basename_slashless by done.
  destruct (rsplit dot name) as [[before after]|] eqn:Hsplit; [|done].
  destruct (String.eqb before "") eqn:Hb; [done|].
  destruct (String.eqb name ".."); [done|]. intros _.
  apply rsplit_Some in Hsplit as [-> _].
  exists before. split; [|done]. intros ->. done.
Qed.

(** [path.basename(p, path.extname(p))] strips the extension of a
    discovered path. *)
Lemma basename_suffix_join dir stem ext :
  slashless (stem +:+ ext) -> stem <> "" -> ext <> "" ->
  basename_suffix (join dir (stem +:+ ext)) ext = stem.
Proof.
  intros Hn Hstem Hext. unfold basename_suffix.
  assert (Hlen : String.length (join dir (stem +:+ ext))
                 = String.length dir + 1 + String.length stem + String.length ext).
  { unfold join. rewrite !length_app_string. cbn. lia. }
  replace (String.eqb ext "") with false
    by (symmetry; by apply String.eqb_neq).
  replace (Nat.leb (String.length ext) (String.length (join dir (stem +:+ ext))))
    with true by (symmetry; apply Nat.leb_le; lia).
  cbn [negb andb].
  replace (String.eqb ext (join dir (stem +:+ ext))) with false.
  2: { symmetry. apply String.eqb_neq. intros Heq.
       apply (f_equal String.length) in Heq. lia. }
  rewrite basename_join, strip_suffix_app by done.
  by destruct stem.
Qed.

End Paths.

(** ** Discovery on directory trees *)

(** Induction on a directory tree, with the hypothesis for every entry of a
    listed directory. *)
Lemma Dirent_ind (P : Dirent -> Prop) :
  (forall name, P (File name)) ->
  (forall name files, Forall P files -> P (Directory name (Fulfilled files))) ->
  (forall name error, P (Directory name (Rejected error))) ->
  forall file, P file.
Proof.
  intros Hfile Hdir Hrej.
  fix IH 1. intros [name|name [files|error]].
  - apply Hfile.
  - apply Hdir. induction files as [|f files IHfiles]; constructor.
    + apply IH.
    + apply IHfiles.
  - apply Hrej.
Qed.

Section Discovery.

Lemma for_of_visit dir files audioFiles :
  Forall (fun file => forall dir,
            visit dir file =
            Fulfilled (filter (fun e => supported e.2 = true) (entries dir file)).*1)
    files ->
  for_of (visit dir) files audioFiles =
  Fulfilled (audioFiles ++ (with_supported dir files).*1).
Proof.
  unfold with_supported, tree_files.
  intros Hall. revert audioFiles.
  induction Hall as [|file files Hfile _ IH]; intros audioFiles.
  - cbn. by rewrite app_nil_r.
  - cbn [for_of flat_map]. rewrite Hfile, IH.
    by rewrite filter_app, fmap_app, app_assoc.
Qed.

Lemma visit_entries file :
  well_formed file = true ->
  forall dir,
    visit dir file =
    Fulfilled (filter (fun e => supported e.2 = true) (entries dir file)).*1.
Proof.
  induction file as [name|name files IH|name error] using Dirent_ind;
    intros Hwf dir.
  - cbn [visit entries dirent_name]. rewrite filter_cons. cbn [snd].
    destruct (supported name); [rewrite decide_True by done|
                                rewrite decide_False by done]; done.
  - cbn [visit entries dirent_name].
    cbn [well_formed] in Hwf. apply andb_prop in Hwf as [_ Hfiles].
    rewrite for_of_visit; [done|].
    rewrite forallb_forall in Hfiles.
    rewrite Forall_forall in IH |- *.
    intros f Hf. apply IH; [done|]. apply Hfiles. by apply list_elem_of_In.
  - done.
Qed.

Lemma entries_basename file :
  well_formed file = true ->
  forall dir path name,
    (path, name) ∈ entries dir file -> Path.basename path = name.
Proof.
  induction file as [name|name files IH|name error] using Dirent_ind;
    intros Hwf dir path name'.
  - cbn. intros [= -> ->]%list_elem_of_singleton.
    apply basename_join. by apply bool_decide_eq_true in Hwf.
  - cbn [entries well_formed] in *. apply andb_prop in Hwf as [_ Hfiles].
    rewrite forallb_forall in Hfiles. rewrite Forall_forall in IH.
    intros (f & Hf & Hin)%list_elem_of_In%in_flat_map.
    apply list_elem_of_In in Hin. apply list_elem_of_In in Hf as Hf'.
    eapply IH; eauto.
  - done.
Qed.

Lemma well_formed_visits dir files :
  forallb well_formed files = true ->
  findAudioFiles dir (Fulfilled files) =
  Fulfilled (with_supported dir files).*1.
Proof.
  intros Hwf. cbn [findAudioFiles]. rewrite for_of_visit; [done|].
  rewrite forallb_forall in Hwf. apply Forall_forall.
  intros f Hf. apply visit_entries, Hwf. by apply list_elem_of_In.
Qed.

Lemma tree_files_basename dir files path name :
  forallb well_formed files = true ->
  (path, name) ∈ tree_files dir files -> Path.basename path = name.
Proof.
  intros Hwf (f & Hf & Hin)%list_elem_of_In%in_flat_map.
  rewrite forallb_forall in Hwf.
  apply (entries_basename f (Hwf f Hf) dir). by apply list_elem_of_In.
Qed.

End Discovery.

(** C4.  For a directory tree whose directories can all be listed, with [N]
    entries that are not directories and whose lowercased extension is one
    of [.mp3 .mp4 .mpeg .mpga .m4a .wav .webm] and [M] other such entries,
    at any depth, [findAudioFiles] returns the paths of exactly the [N]
    entries, in listing order, and the path of none of the [M]. *)
Theorem discoverer_returns_supported (dir : string) (files : list Dirent) :
  forallb well_formed files = true ->
  ∃ audioFiles,
    findAudioFiles dir (Fulfilled files) = Fulfilled audioFiles ∧
    audioFiles = (with_supported dir files).*1 ∧
    List.length audioFiles = List.length (with_supported dir files) ∧
    List.length audioFiles + List.length (with_unsupported dir files)
      = List.length (tree_files dir files) ∧
    (forall path name, (path, name) ∈ with_supported dir files -> path ∈ audioFiles) ∧
    (forall path name, (path, name) ∈ with_unsupported dir files -> path ∉ audioFiles).
Proof.
  intros Hwf. exists (with_supported dir files).*1.
  split; [by apply well_formed_visits|]. split; [done|].
  split; [by rewrite length_fmap|]. split; [|split].
  - rewrite length_fmap. unfold with_supported, with_unsupported.
    induction (tree_files dir files) as [|[p n] l IH]; [done|].
    rewrite !filter_cons. cbn [snd].
    destruct (supported n); repeat case_decide; try done; cbn; lia.
  - intros path name Hin. apply list_elem_of_fmap. by exists (path, name).
  - intros path name [Hunsup Hin]%list_elem_of_filter.
    intros ((path' & name') & Heq & [Hsup Hin']%list_elem_of_filter)%list_elem_of_fmap.
    cbn in Heq, Hunsup, Hsup. subst path'.
    rewrite <- (tree_files_basename dir files path name Hwf Hin) in Hunsup.
    rewrite <- (tree_files_basename dir files path name' Hwf Hin') in Hsup.
    congruence.
Qed.

Lemma discoverer_returns_supported_witness :
  findAudioFiles "/app/source" (Fulfilled sample_tree) =
    Fulfilled [ "/app/source/a.wav"; "/app/source/sub/B.MP3";
                "/app/source/sub/deep/c.tar.webm" ] ∧
  List.length (with_unsupported "/app/source" sample_tree) = 3.
Proof.
  destruct (discoverer_returns_supported "/app/source" sample_tree eq_refl)
    as (audioFiles & Hfind & -> & _).
  split; [exact Hfind|reflexivity].
Defined.

(** ** Properties of every event of a run *)

Section Always.
Context (P : Event -> Prop).

Lemma always_ret {A} (a : A) : always P (ret a).
Proof. intros files. constructor. Qed.

Lemma always_throw {A} error : always P (@throw A error).
Proof. intros files. constructor. Qed.

Lemma always_exit {A} code : always P (@process_exit A code).
Proof. intros files. constructor. Qed.

Lemma always_await {A} (p : Settled A) : always P (await p).
Proof. destruct p; [apply always_ret|apply always_throw]. Qed.

Lemma always_emit e : P e -> always P (emit e).
Proof. intros He files. by repeat constructor. Qed.

Lemma always_bind {A B} (m : Run A) (k : A -> Run B) :
  always P m -> (forall a, always P (k a)) -> always P (bind m k).
Proof.
  intros Hm Hk files. unfold bind. specialize (Hm files).
  destruct (m files) as [[a|error|code] t files']; cbn in *; try done.
  apply Forall_app. split; [done|]. apply Hk.
Qed.

Lemma always_try_catch {A} (body : Run A) handler :
  always P body -> (forall error, always P (handler error)) ->
  always P (try_catch body handler).
Proof.
  intros Hb Hh files. unfold try_catch. specialize (Hb files).
  destruct (body files) as [[a|error|code] t files']; cbn in *; try done.
  apply Forall_app. split; [done|]. apply Hh.
Qed.

Lemma always_when cond body : always P body -> always P (when cond body).
Proof. destruct cond; [done|]. intros _. apply always_ret. Qed.

Lemma always_forEach {A} (l : list A) f :
  (forall x, always P (f x)) -> always P (forEach l f).
Proof.
  intros Hf. induction l as [|x l IH]; cbn [forEach].
  - apply always_ret.
  - apply always_bind; [apply Hf|]. intros _. apply IH.
Qed.

End Always.

Section Language.
Variable w : World.

Lemma create_params_language filePath model language prompt :
  language_rule language
    (transcriptions_create (create_params filePath model language prompt)).
Proof.
  cbn. destruct (String.eqb language "auto") eqn:Heq; cbn.
  - apply String.eqb_eq in Heq. done.
  - apply String.eqb_neq in Heq. done.
Qed.

Lemma transcribeAudio_language filePath model language prompt :
  always (language_rule language)
    (transcribeAudio w filePath model language prompt).
Proof.
  unfold transcribeAudio.
  repeat (first [ apply always_try_catch | apply always_bind
                | apply always_emit | apply always_await | apply always_ret
                | apply always_when | intros ? ]);
    first [ exact I | apply create_params_language ].
Qed.

Lemma iteration_language audioFiles i audioFile successCount :
  always (language_rule (opt_language (options w)))
    (iteration w audioFiles i audioFile successCount).
Proof.
  unfold iteration, fsPromises_writeFile.
  apply always_bind; [by apply always_emit|]. intros _.
  apply always_bind; [apply transcribeAudio_language|].
  intros [text|]; [destruct (Js.truthy_string text)|];
    repeat (first [ apply always_bind | apply always_emit
                  | apply always_await | apply always_ret | intros ? ]);
    try exact I.
Qed.

Lemma loop_language audioFiles i rest successCount :
  always (language_rule (opt_language (options w)))
    (loop w audioFiles i rest successCount).
Proof.
  revert i successCount. induction rest as [|f rest IH]; intros i sc.
  - apply always_ret.
  - cbn [loop]. apply always_bind; [apply iteration_language|].
    intros sc'. apply IH.
Qed.

Lemma main_language :
  always (language_rule (opt_language (options w))) (main w).
Proof.
  unfold main, fsPromises_mkdir.
  repeat (first [ apply loop_language
                | apply always_try_catch | apply always_bind
                | apply always_emit | apply always_await | apply always_ret
                | apply always_when | apply always_exit
                | apply always_forEach; intros [? ?] | intros ? ]);
    exact I.
Qed.

End Language.

(** ** Runs that end at a check *)

Section Checks.
Variable w : World.

Lemma main_without_key files :
  Js.truthy (OPENAI_API_KEY w) = false ->
  main w files =
  {| completion := Exit 1;
     trace := [ console_log Rule; console_log Banner; console_log Rule;
                console_error ApiKeyNotSet ];
     output := files |}.
Proof.
  intros Hkey. unfold main. rewrite Hkey. cbn [negb].
  rewrite !bind_emit, bind_when_true, bind_assoc, bind_emit, bind_exit.
  reflexivity.
Qed.

Lemma main_with_unknown_model files :
  Js.truthy (OPENAI_API_KEY w) = true ->
  Js.truthy_value (Js.get MODELS (opt_model (options w))) = false ->
  main w files =
  {| completion := Exit 1;
     trace := [ console_log Rule; console_log Banner; console_log Rule;
                console_error (InvalidModel (opt_model (options w)));
                console_log AvailableModels ]
              ++ map (fun '(id, description) =>
                        console_log (ModelEntry id description)) MODELS;
     output := files |}.
Proof.
  intros Hkey Hmodel. unfold main. rewrite Hkey, Hmodel. cbn [negb].
  rewrite !bind_emit, bind_when_false, bind_when_true.
  rewrite bind_assoc, bind_emit, bind_assoc, bind_emit, bind_assoc.
  unfold MODELS. cbn [forEach]. rewrite !bind_assoc, bind_emit.
  rewrite !bind_assoc, bind_emit, bind_ret, bind_exit.
  reflexivity.
Qed.

End Checks.

(** C5.  When [OPENAI_API_KEY] is absent, [main] prints the banner and the
    error about the key and exits with status 1: nothing but printing takes
    place, so no directory is created or listed and no transcription is
    requested.  The module as a whole, whether or not building the client
    throws first, ends with a status that is not 0 and has done nothing but
    print either. *)
Theorem missing_key_terminates (w : World) (files : gmap string string) :
  OPENAI_API_KEY w = None ->
  (exit_status (completion (main w files)) = 1 ∧
   trace (main w files) =
     [ console_log Rule; console_log Banner; console_log Rule;
       console_error ApiKeyNotSet ] ∧
   output (main w files) = files) ∧
  (exit_status (completion (index_js w files)) <> 0 ∧
   Forall (fun e => is_console e = true) (trace (index_js w files)) ∧
   calls (trace (index_js w files)) = [] ∧
   (fs_readdir (SOURCE_DIR w) ∉ trace (index_js w files)) ∧
   output (index_js w files) = files).
Proof.
  intros Hkey.
  assert (Hmain := main_without_key w files). rewrite Hkey in Hmain.
  specialize (Hmain eq_refl). split.
  - rewrite Hmain. done.
  - unfold index_js. destruct (client w) as [[]|error].
    + rewrite bind_await_fulfilled, Hmain. cbn.
      repeat split; try done.
      * by repeat constructor.
      * intros Hin.
        repeat (apply elem_of_cons in Hin as [Hin|Hin]; [discriminate|]).
        by apply elem_of_nil in Hin.
    + cbn [await]. rewrite bind_throw. cbn.
      repeat split; try done. by intros Hin%elem_of_nil.
Qed.

Lemma missing_key_terminates_witness :
  let r := index_js (sample_world None "whisper-1" "auto" [ File "a.wav" ] sample_provider) ∅ in
  exit_status (completion r) <> 0 ∧ calls (trace r) = [].
Proof.
  destruct (missing_key_terminates
              (sample_world None "whisper-1" "auto" [ File "a.wav" ] sample_provider)
              ∅ eq_refl) as [_ (Hexit & _ & Hcalls & _)].
  split; [exact Hexit|exact Hcalls].
Defined.

(** What the model check does for an identifier that resolves to nothing
    on [MODELS]: with the key present, the run prints the error about the
    model and the list of every known model, and exits with status 1;
    nothing but printing takes place, so no directory is created or listed
    and nothing is written. *)
Lemma unknown_model_rejected (w : World) (files : gmap string string) :
  Js.truthy (OPENAI_API_KEY w) = true ->
  Js.own MODELS (opt_model (options w)) = None ->
  opt_model (options w) ∉ Js.Object_prototype ->
  exit_status (completion (main w files)) = 1 ∧
  Forall (fun e => is_console e = true) (trace (main w files)) ∧
  output (main w files) = files ∧
  console_error (InvalidModel (opt_model (options w))) ∈ trace (main w files) ∧
  (forall id description,
     (id, description) ∈ MODELS ->
     console_log (ModelEntry id description) ∈ trace (main w files)).
Proof.
  intros Hkey Hown Hproto. rewrite main_with_unknown_model; [|done|].
  2: { unfold Js.get. rewrite Hown. by rewrite bool_decide_eq_false_2. }
  cbn [completion trace output exit_status]. repeat split; try done.
  - by repeat constructor.
  - set_solver.
  - intros id description Hin. apply elem_of_app. right.
    apply list_elem_of_fmap. by exists (id, description).
Qed.

(** C6, at the failing input [--model constructor].  The identifier
    [constructor] is not a key of [MODELS], yet [MODELS.constructor] is the
    function every object inherits, which is truthy, so the check
    [!MODELS[options.model]] lets it through: the run does not end there
    and prints no error about the model; it creates the directories, scans
    the source directory, sends the file to the provider with that model,
    and, the provider having rejected it, ends with status 0. *)
Theorem inherited_name_passes_model_check :
  let w := sample_world (Some "sk-test") "constructor" "auto" [ File "a.wav" ]
             strict_provider in
  Js.own MODELS (opt_model (options w)) = None ∧
  exit_status (completion (main w ∅)) = 0 ∧
  (console_error (InvalidModel "constructor") ∉ trace (main w ∅)) ∧
  filter (fun e => negb (is_console e)) (trace (main w ∅)) =
    [ fs_mkdir "/app/source"; fs_mkdir "/app/transcriptions";
      fs_readdir "/app/source"; fs_createReadStream "/app/source/a.wav";
      transcriptions_create
        {| req_file := "/app/source/a.wav"; req_model := "constructor";
           req_language := None; req_prompt := None |} ] ∧
  filter (fun e => is_count e = true) (trace (main w ∅)) =
    [ console_log (TotalFiles 1); console_log (Successful 0);
      console_log (Failed 1) ].
Proof.
  cbv zeta. repeat split; try by vm_compute.
  apply (bool_decide_unpack _); by vm_compute.
Qed.

(** ** Reading the trace of a completed run *)

Section Reading.
Variable w : World.

Lemma calls_app t1 t2 : calls (t1 ++ t2) = calls t1 ++ calls t2.
Proof.
  induction t1 as [|e t1 IH]; [done|].
  destruct e; cbn; by rewrite ?IH.
Qed.

Lemma calls_console t : Forall (fun e => is_console e = true) t -> calls t = [].
Proof. induction 1 as [|e t He _ IH]; [done|]. by destruct e. Qed.

Lemma preamble_console_or_fs :
  calls (preamble w) = [] ∧
  Forall (fun e => is_count e = false) (preamble w) ∧
  Forall (fun e => is_write e = false) (preamble w).
Proof.
  unfold preamble. destruct (opt_debug (options w)); cbn;
    repeat split; by repeat constructor.
Qed.

Lemma failure_report_console filePath error :
  Forall (fun e => is_console e = true) (failure_report w filePath error) ∧
  Forall (fun e => is_count e = false) (failure_report w filePath error).
Proof.
  unfold failure_report. destruct (opt_debug (options w));
    split; by repeat constructor.
Qed.

Lemma iteration_trace_calls total i audioFile :
  calls (iteration_trace w total i audioFile) =
  [ create_params audioFile (opt_model (options w))
      (opt_language (options w)) (opt_prompt (options w)) ].
Proof.
  unfold iteration_trace. cbn [calls]. f_equal.
  destruct (answer w audioFile) as [text|error].
  - by destruct (Js.truthy_string text).
  - rewrite calls_app, calls_console; [done|].
    apply failure_report_console.
Qed.

Lemma iteration_trace_counts total i audioFile :
  Forall (fun e => is_count e = false) (iteration_trace w total i audioFile).
Proof.
  unfold iteration_trace. repeat (constructor; [done|]).
  destruct (answer w audioFile) as [text|error].
  - destruct (Js.truthy_string text); by repeat constructor.
  - apply Forall_app. split; [apply failure_report_console|].
    by repeat constructor.
Qed.

Lemma loop_trace_calls total i rest :
  calls (loop_trace w total i rest) =
  map (fun audioFile =>
         create_params audioFile (opt_model (options w))
           (opt_language (options w)) (opt_prompt (options w))) rest.
Proof.
  revert i. induction rest as [|f rest IH]; intros i; [done|].
  cbn [loop_trace map]. by rewrite calls_app, iteration_trace_calls, IH.
Qed.

Lemma loop_trace_counts total i rest :
  Forall (fun e => is_count e = false) (loop_trace w total i rest).
Proof.
  revert i. induction rest as [|f rest IH]; intros i; [constructor|].
  cbn [loop_trace]. apply Forall_app. split; [apply iteration_trace_counts|apply IH].
Qed.

Lemma summary_calls total successCount : calls (summary total successCount) = [].
Proof.
  apply calls_console. unfold summary.
  destruct (successCount <? total)%nat; by repeat constructor.
Qed.

(** A rejected call leaves its report in the trace of the loop. *)
Lemma loop_trace_failure total i rest audioFile error :
  audioFile ∈ rest -> answer w audioFile = Rejected error ->
  ∃ t1 t2,
    loop_trace w total i rest =
    t1 ++ [ console_error (ErrorTranscribing (Path.basename audioFile));
            console_error (ErrorMessage (message error));
            spinner_fail (FailedToCreate (Path.relative (SOURCE_DIR w) audioFile)) ]
       ++ t2
    ∨
    loop_trace w total i rest =
    t1 ++ [ console_error (ErrorTranscribing (Path.basename audioFile));
            console_error (ErrorMessage (message error));
            console_error (ErrorObject error);
            spinner_fail (FailedToCreate (Path.relative (SOURCE_DIR w) audioFile)) ]
       ++ t2.
Proof.
  intros Hin Hrej. revert i.
  induction rest as [|f rest IH]; intros i; [by apply elem_of_nil in Hin|].
  apply elem_of_cons in Hin as [<-|Hin].
  - cbn [loop_trace]. unfold iteration_trace, failure_report. rewrite Hrej.
    eexists [_; _; _], _.
    destruct (opt_debug (options w)); [right|left]; cbn; reflexivity.
  - destruct (IH Hin (i + 1)) as (t1 & t2 & Heq).
    exists (iteration_trace w total i f ++ t1), t2. cbn [loop_trace].
    destruct Heq as [->| ->]; [left|right]; by rewrite <- app_assoc.
Qed.

Lemma iteration_trace_writes total i audioFile :
  filter (fun e => is_write e = true) (iteration_trace w total i audioFile) =
  match transcript w audioFile with
  | Some text => [ fs_writeFile (outputFile w audioFile) text ]
  | None => []
  end.
Proof.
  unfold iteration_trace, transcript, failure_report.
  destruct (answer w audioFile) as [text|error];
    [destruct (Js.truthy_string text)|destruct (opt_debug (options w))];
    cbn [app]; rewrite ?filter_cons, ?filter_nil; cbn [is_write];
    repeat case_decide; done.
Qed.

(** The writes of the loop, in order. *)
Lemma loop_trace_writes total i rest :
  filter (fun e => is_write e = true) (loop_trace w total i rest) =
  omap (fun audioFile =>
          fs_writeFile (outputFile w audioFile) <$> transcript w audioFile) rest.
Proof.
  revert i. induction rest as [|f rest IH]; intros i; [done|].
  cbn [loop_trace]. rewrite filter_app, iteration_trace_writes, IH.
  cbn [omap list_omap]. by destruct (transcript w f).
Qed.

End Reading.

(** ** The claims about completed runs *)

(** C8, as stated, fails: with no audio file in the source directory the
    run stops before the summary, and no line of it is printed. *)
Lemma no_files_no_summary :
  let w := sample_world (Some "sk-test") "whisper-1" "auto" [ File "notes.txt" ]
             sample_provider in
  findAudioFiles (SOURCE_DIR w) (source w) = Fulfilled [] ∧
  (console_log (TotalFiles 0) ∉ trace (main w ∅)) ∧
  filter (fun e => is_count e = true) (trace (main w ∅)) = [].
Proof.
  cbv zeta. split; [by vm_compute|]. split; [|by vm_compute].
  apply (bool_decide_unpack _). by vm_compute.
Qed.

(** C8, amended.  When discovery finds no audio file, the run reports
    [Found 0 audio files], prints the notice that there is nothing to
    process and the supported formats, and exits with status 0; the count
    summary is not printed, nothing is sent to the provider and nothing is
    written. *)
Theorem no_files_ends_run (w : World) (files : gmap string string) :
  passes_checks w -> discovers w [] ->
  exit_status (completion (main w files)) = 0 ∧
  trace (main w files) =
    preamble w ++ [ spinner_succeed (Found 0); console_log NoAudioFiles;
                    console_log (SupportedFormats SUPPORTED_FORMATS) ] ∧
  Forall (fun e => is_count e = false) (trace (main w files)) ∧
  Forall (fun e => is_write e = false) (trace (main w files)) ∧
  calls (trace (main w files)) = [] ∧
  output (main w files) = files.
Proof.
  intros Hchecks Hdisc. rewrite (main_run w [] files) by (done || constructor).
  destruct (preamble_console_or_fs w) as (Hcalls & Hcount & Hwrite).
  cbn [completed prepend completion trace output exit_status].
  repeat split; try done.
  - apply Forall_app. split; [done|]. by repeat constructor.
  - apply Forall_app. split; [done|]. by repeat constructor.
  - by rewrite calls_app, Hcalls.
Qed.

Lemma no_files_ends_run_witness :
  exit_status
    (completion
       (main (sample_world (Some "sk-test") "whisper-1" "auto"
                [ File "notes.txt" ] sample_provider) ∅)) = 0.
Proof.
  refine (proj1 (no_files_ends_run
                   (sample_world (Some "sk-test") "whisper-1" "auto"
                      [ File "notes.txt" ] sample_provider) ∅ _ _)).
  - split; reflexivity.
  - repeat split; reflexivity.
Defined.

(** C3.  [transcribeAudio] sends one request; it carries the file, the
    model and the prompt it was given, no language parameter when the
    language is [auto], and the language itself, unchanged, for any other
    value.  So does every request of a run of [main] with the language
    option. *)
Theorem language_parameter (w : World) (files : gmap string string) :
  (forall filePath model language prompt,
     ∃ request,
       calls (trace (transcribeAudio w filePath model language prompt files))
         = [ request ] ∧
       req_file request = filePath ∧
       req_model request = model ∧
       req_prompt request = prompt ∧
       (language = "auto" -> req_language request = None) ∧
       (language <> "auto" -> req_language request = Some language)) ∧
  (forall request,
     transcriptions_create request ∈ trace (main w files) ->
     (opt_language (options w) = "auto" -> req_language request = None) ∧
     (opt_language (options w) <> "auto" ->
      req_language request = Some (opt_language (options w)))).
Proof.
  split.
  - intros filePath model language prompt.
    exists (create_params filePath model language prompt).
    rewrite transcribeAudio_run. cbn [trace calls].
    split; [|repeat split; try apply create_params_language].
    f_equal. destruct (create w _) as [text|error]; [done|].
    apply calls_console, failure_report_console.
  - intros request Hin.
    pose proof (main_language w files) as Hall.
    rewrite Forall_forall in Hall. apply (Hall _ Hin).
Qed.

Lemma language_parameter_witness :
  req_language
    {| req_file := "/app/source/a.wav"; req_model := "whisper-1";
       req_language := Some "hu"; req_prompt := None |} = Some "hu".
Proof.
  refine (proj2 (proj2 (language_parameter
                          (sample_world (Some "sk-test") "whisper-1" "hu"
                             [ File "a.wav" ] sample_provider) ∅) _ _) _).
  - apply (bool_decide_unpack _). vm_compute. exact I.
  - discriminate.
Defined.

(** C10.  When the provider answers with the empty text, the iteration
    takes the failure branch: it writes nothing, leaves the output
    directory as it was, reports the failure on the spinner and returns
    [successCount] unchanged; the file is not one of the successes. *)
Theorem empty_text_is_a_failure (w : World) (audioFiles : list string)
    (i : nat) (audioFile : string) (successCount : nat)
    (files : gmap string string) :
  answer w audioFile = Fulfilled "" ->
  completion (iteration w audioFiles i audioFile successCount files)
    = Normal successCount ∧
  output (iteration w audioFiles i audioFile successCount files) = files ∧
  Forall (fun e => is_write e = false)
    (trace (iteration w audioFiles i audioFile successCount files)) ∧
  spinner_fail (FailedToCreate (Path.relative (SOURCE_DIR w) audioFile))
    ∈ trace (iteration w audioFiles i audioFile successCount files) ∧
  succeeds w audioFile = false ∧
  successes w [ audioFile ] = 0.
Proof.
  intros Hanswer.
  assert (Hfail : succeeds w audioFile = false).
  { unfold succeeds, transcript. by rewrite Hanswer. }
  assert (Hnone : successes w [ audioFile ] = 0).
  { unfold successes. rewrite filter_cons, decide_False; [done|].
    by rewrite Hfail. }
  rewrite iteration_run by (by rewrite Hfail).
  cbn [completion trace output written]. rewrite Hfail.
  unfold iteration_trace, transcript. rewrite Hanswer. cbn.
  repeat split; try done.
  - by repeat constructor.
  - set_solver.
Qed.

Lemma empty_text_is_a_failure_witness :
  completion
    (iteration
       (sample_world (Some "sk-test") "whisper-1" "auto" [ File "silence.m4a" ]
          sample_provider)
       [ "/app/source/silence.m4a" ] 0 "/app/source/silence.m4a" 0 ∅)
  = Normal 0.
Proof.
  refine (proj1 (empty_text_is_a_failure
                   (sample_world (Some "sk-test") "whisper-1" "auto"
                      [ File "silence.m4a" ] sample_provider)
                   [ "/app/source/silence.m4a" ] 0 "/app/source/silence.m4a" 0 ∅ _)).
  reflexivity.
Defined.

(** C1, as stated, fails: when every file is transcribed the summary has no
    line for the failures.  Here one file is found and transcribed, and the
    count lines of the run are the total and the successes only. *)
Lemma all_succeed_no_failed_line :
  let w := sample_world (Some "sk-test") "whisper-1" "auto" [ File "a.wav" ]
             sample_provider in
  findAudioFiles (SOURCE_DIR w) (source w) = Fulfilled [ "/app/source/a.wav" ] ∧
  successes w [ "/app/source/a.wav" ] = 1 ∧
  (console_log (Failed (1 - 1)) ∉ trace (main w ∅)) ∧
  filter (fun e => is_count e = true) (trace (main w ∅)) =
    [ console_log (TotalFiles 1); console_log (Successful 1) ].
Proof.
  cbv zeta. split; [by vm_compute|]. split; [by vm_compute|].
  split; [|by vm_compute].
  apply (bool_decide_unpack _). by vm_compute.
Qed.

(** C1, amended.  A run that passes both checks, discovers [K] files with
    [K] at least 1, and can write every transcript, returns normally, and
    its trace ends with the summary: the total [K], the number [S] of files
    transcribed successfully (a fulfilled call with a text that is not
    empty), and a line with the failures [K - S] exactly when [S < K].  No
    other count line is printed before it. *)
Theorem summary_counts (w : World) (audioFiles : list string)
    (files : gmap string string) :
  passes_checks w -> discovers w audioFiles -> writable w audioFiles ->
  audioFiles <> [] ->
  successes w audioFiles <= List.length audioFiles ∧
  completion (main w files) = Normal tt ∧
  (∃ before,
     Forall (fun e => is_count e = false) before ∧
     trace (main w files) =
       before
       ++ [ console_log Rule; console_log ProcessingCompleted;
            console_log (TotalFiles (List.length audioFiles));
            console_log (Successful (successes w audioFiles)) ]
       ++ (if decide (successes w audioFiles < List.length audioFiles)
           then [ console_log
                    (Failed (List.length audioFiles - successes w audioFiles)) ]
           else [])
       ++ [ console_log Rule ]) ∧
  (forall n,
     console_log (Failed n) ∈ trace (main w files) <->
     successes w audioFiles < List.length audioFiles ∧
     n = List.length audioFiles - successes w audioFiles).
Proof.
  intros Hchecks Hdisc Hwrite Hne.
  rewrite (main_run w audioFiles files) by done.
  rewrite completed_nonempty by done.
  cbn [prepend completion trace output].
  destruct (preamble_console_or_fs w) as (_ & Hcount & _).
  assert (Hsummary : summary (List.length audioFiles) (successes w audioFiles) =
    [ console_log Rule; console_log ProcessingCompleted;
      console_log (TotalFiles (List.length audioFiles));
      console_log (Successful (successes w audioFiles)) ]
    ++ (if decide (successes w audioFiles < List.length audioFiles)
        then [ console_log
                 (Failed (List.length audioFiles - successes w audioFiles)) ]
        else [])
    ++ [ console_log Rule ]).
  { unfold summary. case_decide as Hlt.
    - apply Nat.ltb_lt in Hlt. by rewrite Hlt.
    - apply Nat.ltb_nlt in Hlt. by rewrite Hlt. }
  assert (Hbefore : Forall (fun e => is_count e = false)
            (preamble w ++ [ spinner_succeed (Found (List.length audioFiles));
                             console_log StartingProcessing ]
             ++ loop_trace w (List.length audioFiles) 0 audioFiles)).
  { apply Forall_app. split; [done|]. apply Forall_app.
    split; [by repeat constructor|apply loop_trace_counts]. }
  split; [apply successes_le|]. split; [done|]. split.
  - eexists. split; [exact Hbefore|].
    rewrite Hsummary, <- !app_assoc. reflexivity.
  - intros n. rewrite Hsummary.
    rewrite (app_assoc (preamble w)), (app_assoc (preamble w ++ _)).
    rewrite <- (app_assoc (preamble w)).
    rewrite elem_of_app. split.
    + intros [Hin|Hin].
      * rewrite Forall_forall in Hbefore. by specialize (Hbefore _ Hin).
      * case_decide; cbn in Hin;
          repeat (apply elem_of_cons in Hin as [Hin|Hin]; [try discriminate|]);
          try (by apply elem_of_nil in Hin).
        by injection Hin as ->.
    + intros [Hlt ->]. right. rewrite decide_True by done. cbn. set_solver.
Qed.

Lemma summary_counts_witness :
  completion (main scenario ∅) = Normal tt.
Proof.
  refine (proj1 (proj2 (summary_counts scenario
                          [ "/app/source/a.wav"; "/app/source/b.mp3" ] ∅ _ _ _ _))).
  - split; reflexivity.
  - repeat split; reflexivity.
  - repeat constructor.
  - discriminate.
Defined.

(** C7.  A rejected transcription call never leaves [transcribeAudio] as an
    exception: the iteration prints the base name of the file and the
    message of the error, reports the failure on the spinner, returns
    [successCount] unchanged and writes nothing, so the loop goes on.  In a
    run that passes both checks, creates its directories, discovers
    [audioFiles] and can write every transcript, every discovered file is
    sent to the provider, once and in order, whatever failed before it;
    the report of each failure is in the trace; the summary counts it among
    the failures; and the exit status is 0, also when every call fails. *)
Theorem failures_do_not_abort (w : World) (audioFiles : list string)
    (files : gmap string string) :
  (forall i audioFile successCount files' error,
     answer w audioFile = Rejected error ->
     completion (iteration w audioFiles i audioFile successCount files')
       = Normal successCount ∧
     output (iteration w audioFiles i audioFile successCount files') = files' ∧
     trace (iteration w audioFiles i audioFile successCount files') =
       [ spinner_start
           (Processing (i + 1) (List.length audioFiles)
              (Path.relative (SOURCE_DIR w) audioFile));
         fs_createReadStream audioFile;
         transcriptions_create
           (create_params audioFile (opt_model (options w))
              (opt_language (options w)) (opt_prompt (options w)));
         console_error (ErrorTranscribing (Path.basename audioFile));
         console_error (ErrorMessage (message error)) ]
       ++ (if opt_debug (options w)
           then [ console_error (ErrorObject error) ] else [])
       ++ [ spinner_fail
              (FailedToCreate (Path.relative (SOURCE_DIR w) audioFile)) ]) ∧
  (passes_checks w -> discovers w audioFiles -> writable w audioFiles ->
   exit_status (completion (main w files)) = 0 ∧
   calls (trace (main w files)) =
     map (fun audioFile =>
            create_params audioFile (opt_model (options w))
              (opt_language (options w)) (opt_prompt (options w))) audioFiles ∧
   (forall audioFile error,
      audioFile ∈ audioFiles -> answer w audioFile = Rejected error ->
      (∃ t1 t2,
         trace (main w files) =
         t1 ++ [ console_error (ErrorTranscribing (Path.basename audioFile));
                 console_error (ErrorMessage (message error)) ] ++ t2) ∧
      successes w audioFiles < List.length audioFiles ∧
      console_log (Failed (List.length audioFiles - successes w audioFiles))
        ∈ trace (main w files)) ∧
   ((forall audioFile, audioFile ∈ audioFiles ->
       ∃ error, answer w audioFile = Rejected error) ->
    successes w audioFiles = 0 ∧ output (main w files) = files)).
Proof.
  split.
  - intros i audioFile successCount files' error Hrej.
    assert (Hfail : succeeds w audioFile = false).
    { unfold succeeds, transcript. by rewrite Hrej. }
    rewrite iteration_run by (by rewrite Hfail).
    cbn [completion trace output written]. rewrite Hfail.
    unfold iteration_trace, transcript, failure_report. rewrite Hrej.
    done.
  - intros Hchecks Hdisc Hwrite.
    rewrite (main_run w audioFiles files) by done.
    destruct (preamble_console_or_fs w) as (Hcalls & _ & _).
    destruct audioFiles as [|f rest].
    { cbn [completed prepend completion trace output exit_status].
      split; [done|]. split; [by rewrite calls_app, Hcalls|].
      split; [by intros ? ? ?%elem_of_nil|done]. }
    remember (f :: rest) as audioFiles eqn:Heq.
    assert (Hne : audioFiles <> []) by (by rewrite Heq).
    rewrite completed_nonempty by done.
    cbn [prepend completion trace output exit_status].
    split; [done|]. split; [|split].
    + rewrite !calls_app, Hcalls, loop_trace_calls, summary_calls.
      cbn. by rewrite app_nil_r.
    + intros audioFile error Hin Hrej.
      assert (Hlt : successes w audioFiles < List.length audioFiles).
      { apply (length_filter_lt _ _ audioFile); [done|].
        unfold succeeds, transcript. by rewrite Hrej. }
      split; [|split; [done|]].
      * destruct (loop_trace_failure w (List.length audioFiles) 0 audioFiles
                    audioFile error Hin Hrej) as (t1 & t2 & [Heq'|Heq']);
          rewrite Heq'.
        -- exists (preamble w ++ [ spinner_succeed (Found (List.length audioFiles));
                                   console_log StartingProcessing ] ++ t1).
           eexists. rewrite <- !app_assoc. cbn [app]. reflexivity.
        -- exists (preamble w ++ [ spinner_succeed (Found (List.length audioFiles));
                                   console_log StartingProcessing ] ++ t1).
           eexists. rewrite <- !app_assoc. cbn [app]. reflexivity.
      * unfold summary. apply Nat.ltb_lt in Hlt. rewrite Hlt.
        rewrite !elem_of_app. right. right. right. right. left.
        by apply list_elem_of_singleton.
    + intros Hall.
      assert (Hnone : forall l files0,
                (forall a, a ∈ l -> ∃ error, answer w a = Rejected error) ->
                successes w l = 0 ∧ written w l files0 = files0).
      { induction l as [|a l IH]; intros files0 Hl; [done|].
        destruct (Hl a) as [error Ha]; [by apply elem_of_cons; left|].
        destruct (IH files0) as [IHs IHw].
        { intros b Hb. apply Hl. apply elem_of_cons. by right. }
        assert (Ht : transcript w a = None)
          by (unfold transcript; by rewrite Ha).
        assert (Hs : succeeds w a = false)
          by (unfold succeeds; by rewrite Ht).
        unfold successes in *. cbn [written]. rewrite Ht.
        rewrite filter_cons, decide_False by (by rewrite Hs). done. }
      by apply Hnone.
Qed.

Lemma failures_do_not_abort_witness :
  exit_status (completion (main all_fail ∅)) = 0 ∧
  successes all_fail [ "/app/source/b.mp3"; "/app/source/talks/c.webm" ] = 0.
Proof.
  pose proof (proj2 (failures_do_not_abort all_fail
                       [ "/app/source/b.mp3"; "/app/source/talks/c.webm" ] ∅))
    as Hrun.
  destruct Hrun as (Hexit & _ & _ & Hall).
  - split; reflexivity.
  - repeat split; reflexivity.
  - repeat constructor; discriminate.
  - split; [exact Hexit|]. apply Hall.
    intros audioFile Hin. exists {| message := "Connection error." |}.
    repeat (apply elem_of_cons in Hin as [->|Hin]; [reflexivity|]).
    by apply elem_of_nil in Hin.
Defined.

(** ** The output directory after a run *)

Section Output.
Variable w : World.

Lemma succeeds_transcript audioFile :
  succeeds w audioFile = true <-> ∃ text, transcript w audioFile = Some text.
Proof. unfold succeeds. by rewrite bool_decide_eq_true. Qed.

Lemma written_dom audioFiles files :
  dom (written w audioFiles files) =
  dom files ∪ list_to_set (outputFile w <$> transcribed w audioFiles).
Proof.
  revert files. unfold transcribed.
  induction audioFiles as [|f l IH]; intros files; cbn [written].
  - set_solver.
  - rewrite filter_cons. destruct (transcript w f) as [text|] eqn:Ht.
    + rewrite decide_True by (apply succeeds_transcript; eauto).
      rewrite IH, dom_insert_L. set_solver.
    + rewrite decide_False.
      2: { intros [text Hs]%succeeds_transcript. congruence. }
      apply IH.
Qed.

Lemma written_lookup_other audioFiles files path :
  path ∉ outputFile w <$> transcribed w audioFiles ->
  written w audioFiles files !! path = files !! path.
Proof.
  revert files. unfold transcribed.
  induction audioFiles as [|f l IH]; intros files Hnot; cbn [written]; [done|].
  rewrite filter_cons in Hnot. destruct (transcript w f) as [text|] eqn:Ht.
  - rewrite decide_True in Hnot by (apply succeeds_transcript; eauto).
    rewrite fmap_cons, not_elem_of_cons in Hnot. destruct Hnot as [Hne Hnot].
    rewrite IH by done. by rewrite lookup_insert_ne.
  - rewrite decide_False in Hnot.
    2: { intros [text Hs]%succeeds_transcript. congruence. }
    by apply IH.
Qed.

(** With distinct output names, each transcript is what its output file
    holds at the end. *)
Lemma written_lookup audioFiles files audioFile text :
  NoDup (outputFile w <$> transcribed w audioFiles) ->
  audioFile ∈ audioFiles -> transcript w audioFile = Some text ->
  written w audioFiles files !! outputFile w audioFile = Some text.
Proof.
  revert files. unfold transcribed.
  induction audioFiles as [|f l IH]; intros files Hnd Hin Ht;
    [by apply elem_of_nil in Hin|].
  cbn [written]. rewrite filter_cons in Hnd.
  destruct (transcript w f) as [text'|] eqn:Hf.
  - rewrite decide_True in Hnd by (apply succeeds_transcript; eauto).
    rewrite fmap_cons in Hnd. apply NoDup_cons in Hnd as [Hnot Hnd].
    apply elem_of_cons in Hin as [->|Hin].
    + rewrite written_lookup_other by done.
      rewrite lookup_insert_eq. congruence.
    + by apply IH.
  - rewrite decide_False in Hnd.
    2: { intros [text' Hs]%succeeds_transcript. congruence. }
    apply elem_of_cons in Hin as [->|Hin]; [congruence|]. by apply IH.
Qed.

Lemma size_list_to_set_le (l : list string) :
  size (list_to_set l : gset string) <= List.length l.
Proof.
  induction l as [|x l IH]; [done|].
  rewrite list_to_set_cons, size_union_alt, size_singleton. cbn.
  assert (size (list_to_set l ∖ {[x]} : gset string)
          <= size (list_to_set l : gset string))
    by (apply subseteq_size; set_solver).
  lia.
Qed.

Lemma size_list_to_set_NoDup (l : list string) :
  size (list_to_set l : gset string) = List.length l <-> NoDup l.
Proof.
  split; [|apply size_list_to_set].
  induction l as [|x l IH]; [constructor|].
  rewrite list_to_set_cons. cbn. intros Hsize.
  pose proof (size_list_to_set_le l) as Hle.
  destruct (decide (x ∈ l)) as [Hin|Hnot].
  - replace ({[x]} ∪ list_to_set l : gset string)
      with (list_to_set l : gset string) in Hsize by set_solver.
    lia.
  - apply NoDup_cons. split; [done|]. apply IH.
    rewrite size_union, size_singleton in Hsize by set_solver. lia.
Qed.

End Output.

(** C2, as stated, fails: two files with the same base name in different
    subdirectories are both transcribed successfully, and one output file
    exists afterwards. *)
Lemma same_name_one_output :
  findAudioFiles (SOURCE_DIR same_name) (source same_name) =
    Fulfilled [ "/app/source/monday/meeting.wav";
                "/app/source/tuesday/meeting.wav" ] ∧
  successes same_name [ "/app/source/monday/meeting.wav";
                        "/app/source/tuesday/meeting.wav" ] = 2 ∧
  size (output (main same_name ∅)) = 1 ∧
  size (output (main same_name ∅)) <>
    successes same_name [ "/app/source/monday/meeting.wav";
                          "/app/source/tuesday/meeting.wav" ].
Proof. repeat split; by vm_compute. Qed.

(** C2, amended.  After a run that passes both checks, discovers
    [audioFiles], can write every transcript and starts with an empty output
    directory, the output files are exactly the output paths of the files
    transcribed successfully, never more; there are at most [S] of them,
    and exactly [S] precisely when these files have distinct output paths,
    that is, distinct base names once the extension is removed. *)
Theorem outputs_of_successes (w : World) (audioFiles : list string) :
  passes_checks w -> discovers w audioFiles -> writable w audioFiles ->
  dom (output (main w ∅)) =
    list_to_set (outputFile w <$> transcribed w audioFiles) ∧
  (forall path, is_Some (output (main w ∅) !! path) ->
     ∃ audioFile, audioFile ∈ audioFiles ∧ succeeds w audioFile = true ∧
                  path = outputFile w audioFile) ∧
  size (output (main w ∅)) <= successes w audioFiles ∧
  (size (output (main w ∅)) = successes w audioFiles <->
   NoDup (outputFile w <$> transcribed w audioFiles)).
Proof.
  intros Hchecks Hdisc Hwrite.
  assert (Hout : output (main w ∅) = written w audioFiles ∅).
  { rewrite (main_run w audioFiles ∅) by done. by destruct audioFiles. }
  assert (Hdom : dom (output (main w ∅)) =
                 list_to_set (outputFile w <$> transcribed w audioFiles)).
  { rewrite Hout, written_dom. set_solver. }
  assert (Hlen : List.length (outputFile w <$> transcribed w audioFiles)
                 = successes w audioFiles) by apply length_fmap.
  split; [done|]. split; [|split].
  - intros path Hsome. apply elem_of_dom in Hsome. rewrite Hdom in Hsome.
    apply elem_of_list_to_set, list_elem_of_fmap in Hsome
      as (audioFile & -> & [Hs Hin]%list_elem_of_filter).
    by exists audioFile.
  - rewrite <- size_dom, Hdom, <- Hlen. apply size_list_to_set_le.
  - rewrite <- size_dom, Hdom, <- Hlen. apply size_list_to_set_NoDup.
Qed.

Lemma outputs_of_successes_witness :
  size (output (main scenario ∅)) <=
  successes scenario [ "/app/source/a.wav"; "/app/source/b.mp3" ].
Proof.
  refine (proj1 (proj2 (proj2 (outputs_of_successes scenario
                                 [ "/app/source/a.wav"; "/app/source/b.mp3" ]
                                 _ _ _)))).
  - split; reflexivity.
  - repeat split; reflexivity.
  - repeat constructor.
Defined.

(** ** Where a transcript goes *)

Lemma entries_shape (file : Dirent) :
  well_formed file = true ->
  forall dir path name,
    (path, name) ∈ entries dir file ->
    slashless name ∧ ∃ parent, path = Path.join parent name.
Proof.
  induction file as [name|name files IH|name error] using Dirent_ind;
    intros Hwf dir path name'.
  - cbn. intros [= -> ->]%list_elem_of_singleton.
    split; [by apply bool_decide_eq_true in Hwf|by exists dir].
  - cbn [entries well_formed] in *. apply andb_prop in Hwf as [_ Hfiles].
    rewrite forallb_forall in Hfiles. rewrite Forall_forall in IH.
    intros (f & Hf & Hin)%list_elem_of_In%in_flat_map.
    apply list_elem_of_In in Hin. apply list_elem_of_In in Hf as Hf'.
    eapply IH; eauto.
  - done.
Qed.

(** Every discovered path is a directory joined with a supported name. *)
Lemma discovered_shape (dir : string) (files : list Dirent)
    (audioFiles : list string) (audioFile : string) :
  forallb well_formed files = true ->
  findAudioFiles dir (Fulfilled files) = Fulfilled audioFiles ->
  audioFile ∈ audioFiles ->
  ∃ parent name,
    audioFile = Path.join parent name ∧ slashless name ∧ supported name = true.
Proof.
  intros Hwf Hfind Hin. rewrite well_formed_visits in Hfind by done.
  injection Hfind as <-.
  apply list_elem_of_fmap in Hin as ([path name] & -> & [Hsup Hin]%list_elem_of_filter).
  apply list_elem_of_In, in_flat_map in Hin as (f & Hf & Hin).
  rewrite forallb_forall in Hwf. apply list_elem_of_In in Hin.
  destruct (entries_shape f (Hwf f Hf) dir path name Hin) as (Hname & parent & ->).
  by exists parent, name.
Qed.

Lemma outputFile_join (w : World) (parent name : string) :
  slashless name -> supported name = true ->
  ∃ stem,
    stem <> "" ∧ name = stem +:+ Path.extname name ∧
    outputFile w (Path.join parent name) =
      OUTPUT_DIR w +:+ "/" +:+ stem +:+ ".txt".
Proof.
  intros Hname Hsup.
  pose proof (supported_extname name Hsup) as Hext.
  destruct (extname_split name Hname Hext) as (stem & Hstem & Hsplit).
  exists stem. split; [done|]. split; [done|].
  unfold outputFile. rewrite extname_join by done.
  set (ext := Path.extname name) in *.
  rewrite Hsplit. rewrite basename_suffix_join; [done| |done|done].
  by rewrite <- Hsplit.
Qed.

(** C9.  In a run that passes both checks, discovers [audioFiles] in a
    source tree whose directories can all be listed, and can write every
    transcript: for every file transcribed successfully, the output path is
    the output directory joined with the base name of the file, its
    extension replaced by [.txt], whatever subdirectory the file is in; the
    run writes the returned text to that path; the write makes the text the
    whole content of the file, whatever the file held before; and when no
    other successful file has the same output path, that is the content at
    the end of the run. *)
Theorem transcript_written (w : World) (tree : list Dirent)
    (audioFiles : list string) (files : gmap string string) :
  passes_checks w -> source w = Fulfilled tree ->
  forallb well_formed tree = true ->
  discovers w audioFiles -> writable w audioFiles ->
  forall audioFile text,
    audioFile ∈ audioFiles -> transcript w audioFile = Some text ->
    ∃ stem,
      stem <> "" ∧
      Path.basename audioFile = stem +:+ Path.extname audioFile ∧
      outputFile w audioFile = OUTPUT_DIR w +:+ "/" +:+ stem +:+ ".txt" ∧
      fs_writeFile (outputFile w audioFile) text ∈ trace (main w files) ∧
      (forall i successCount files',
         output (iteration w audioFiles i audioFile successCount files')
         = <[outputFile w audioFile := text]> files') ∧
      (NoDup (outputFile w <$> transcribed w audioFiles) ->
       output (main w files) !! outputFile w audioFile = Some text).
Proof.
  intros Hchecks Hsource Hwf Hdisc Hwrite audioFile text Hin Ht.
  pose proof Hdisc as (_ & _ & Hfind). rewrite Hsource in Hfind.
  destruct (discovered_shape _ _ _ _ Hwf Hfind Hin)
    as (parent & name & -> & Hname & Hsup).
  destruct (outputFile_join w parent name Hname Hsup)
    as (stem & Hstem & Hsplit & Hout).
  exists stem. split; [done|]. split; [|split; [done|]].
  { by rewrite basename_join, extname_join. }
  assert (Hs : succeeds w (Path.join parent name) = true)
    by (apply succeeds_transcript; eauto).
  assert (Hrun : output (main w files) = written w audioFiles files
                 ∧ filter (fun e => is_write e = true) (trace (main w files))
                   = omap (fun f => fs_writeFile (outputFile w f) <$> transcript w f)
                       audioFiles).
  { rewrite (main_run w audioFiles files) by done.
    destruct (preamble_console_or_fs w) as (_ & _ & Hpre).
    assert (Hnone : filter (fun e => is_write e = true) (preamble w) = []).
    { induction Hpre as [|e t He _ IH]; [done|].
      rewrite filter_cons, decide_False by (by rewrite He). done. }
    destruct audioFiles as [|f rest]; [by apply elem_of_nil in Hin|].
    remember (f :: rest) as l eqn:Heq.
    rewrite completed_nonempty by (by rewrite Heq).
    cbn [prepend trace output]. split; [done|].
    rewrite !filter_app, Hnone, loop_trace_writes.
    replace (filter _ (summary _ _)) with (@nil Event).
    2: { unfold summary. by destruct (_ <? _)%nat. }
    cbn. by rewrite app_nil_r. }
  destruct Hrun as [Hfinal Hwrites].
  split; [|split].
  - assert (Hw : fs_writeFile (outputFile w (Path.join parent name)) text
                 ∈ filter (fun e => is_write e = true) (trace (main w files))).
    { rewrite Hwrites. apply list_elem_of_omap.
      exists (Path.join parent name). split; [done|]. by rewrite Ht. }
    by apply list_elem_of_filter in Hw as [_ Hw].
  - intros i successCount files'.
    rewrite iteration_run.
    + cbn [output written]. by rewrite Ht.
    + intros _. unfold writable in Hwrite. rewrite Forall_forall in Hwrite.
      by apply Hwrite.
  - intros Hnd. rewrite Hfinal. by apply written_lookup.
Qed.

Lemma transcript_written_witness :
  ∃ stem,
    stem <> "" ∧
    Path.basename "/app/source/2024/may/Talk.One.WAV"
      = stem +:+ Path.extname "/app/source/2024/may/Talk.One.WAV" ∧
    outputFile nested "/app/source/2024/may/Talk.One.WAV"
      = OUTPUT_DIR nested +:+ "/" +:+ stem +:+ ".txt" ∧
    output (main nested ∅) !! "/app/transcriptions/Talk.One.txt" = Some "hello".
Proof.
  destruct (transcript_written nested
              [ Directory "2024" (Fulfilled [ Directory "may" (Fulfilled [ File "Talk.One.WAV" ]) ]) ]
              [ "/app/source/2024/may/Talk.One.WAV" ] ∅)
    with (audioFile := "/app/source/2024/may/Talk.One.WAV") (text := "hello")
    as (stem & Hstem & Hbase & Hout & _ & _ & Hfinal).
  - split; reflexivity.
  - reflexivity.
  - reflexivity.
  - repeat split; reflexivity.
  - repeat constructor.
  - apply list_elem_of_singleton. reflexivity.
  - reflexivity.
  - exists stem.
    split; [exact Hstem|]. split; [exact Hbase|]. split; [exact Hout|].
    apply Hfinal. apply (bool_decide_unpack _). vm_compute. exact I.
Defined.

(** ** Examples *)

Example ex_find :
  findAudioFiles "/r/source"
    (Fulfilled [ File "a.wav"; File "notes.txt";
                 Directory "sub" (Fulfilled [ File "B.MP3"; File ".mp3";
                                              Directory "deep" (Fulfilled [ File "c.tar.webm" ]) ]);
                 File "d.flac" ])
  = Fulfilled [ "/r/source/a.wav"; "/r/source/sub/B.MP3"; "/r/source/sub/deep/c.tar.webm" ].
Proof. reflexivity. Qed.

Example scenario_run :
  let r := main scenario ∅ in
  exit_status (completion r) = 0 ∧
  map_to_list (output r) = [ ("/app/transcriptions/a.txt", "hello") ] ∧
  filter (fun e => is_count e = true) (trace r) =
    [ console_log (TotalFiles 2); console_log (Successful 1);
      console_log (Failed 1) ].
Proof. vm_compute. done. Qed.

(** * Further properties of the program *)

(** ** The [try] statement of [main] *)

Section TryStatement.
Variable w : World.

Lemma try_catch_caught {A} (body : Run A) handler files error t files' :
  body files = {| completion := Throw error; trace := t; output := files' |} ->
  try_catch body handler files = prepend t (handler error files').
Proof. intros Hb. unfold try_catch. rewrite Hb. reflexivity. Qed.

(** Once both checks have passed, [main] is its opening lines followed by
    the [try] statement. *)
Lemma main_checked files :
  passes_checks w ->
  main w files =
  prepend (opening w) (try_catch (main_try w) (main_catch w) files).
Proof.
  intros [Hkey Hmodel]. unfold main, opening. rewrite Hkey, Hmodel. cbn [negb].
  rewrite !bind_emit, bind_when_false, bind_when_false, !prepend_prepend.
  cbn [app]. fold (main_try w).
  change (fun error : Error =>
            emit (console_error AnErrorOccurred) ;;
            emit (console_error (ErrorMessage (message error))) ;;
            when (opt_debug (options w)) (emit (console_error (ErrorObject error))) ;;
            process_exit 1) with (main_catch w).
  destruct (opt_debug (options w)).
  - rewrite bind_when_true.
    do 5 rewrite bind_assoc, bind_emit. rewrite bind_emit.
    rewrite !prepend_prepend. reflexivity.
  - rewrite bind_when_false. reflexivity.
Qed.

Lemma main_catch_run error files :
  main_catch w error files =
  {| completion := Exit 1; trace := fatal_report w error; output := files |}.
Proof.
  unfold main_catch, fatal_report. rewrite !bind_emit.
  destruct (opt_debug (options w)).
  - rewrite bind_when_true, bind_emit. reflexivity.
  - rewrite bind_when_false. reflexivity.
Qed.

End TryStatement.

(** ** Fatal errors *)

Section Fatal.
Variable w : World.


Lemma bind_mkdir_rejected {B} path (k : unit -> Run B) files error :
  mkdir w path = Rejected error ->
  bind (fsPromises_mkdir w path) k files =
  {| completion := Throw error; trace := [ fs_mkdir path ]; output := files |}.
Proof.
  intros Hrej. unfold fsPromises_mkdir.
  rewrite bind_assoc, bind_emit, Hrej. cbn [await]. by rewrite bind_throw.
Qed.



End Fatal.

(** X1.  When both checks pass and a directory cannot be created, the run
    prints what the handler of [main] prints, with the message of the
    error, and exits with status 1, without listing the source directory
    and with the output files as they were. *)
Theorem directory_creation_failure_is_fatal (w : World)
    (files : gmap string string) (error : Error) :
  passes_checks w ->
  (mkdir w (SOURCE_DIR w) = Rejected error ->
   main w files =
   {| completion := Exit 1;
      trace := opening w ++ [ fs_mkdir (SOURCE_DIR w) ] ++ fatal_report w error;
      output := files |}) ∧
  (mkdir w (SOURCE_DIR w) = Fulfilled tt ->
   mkdir w (OUTPUT_DIR w) = Rejected error ->
   main w files =
   {| completion := Exit 1;
      trace := opening w ++ [ fs_mkdir (SOURCE_DIR w); fs_mkdir (OUTPUT_DIR w) ]
               ++ fatal_report w error;
      output := files |}).
Proof.
  intros Hchecks. split.
  - intros Hrej. rewrite main_checked by done.
    erewrite try_catch_caught
      by (unfold main_try; by apply bind_mkdir_rejected).
    rewrite main_catch_run. reflexivity.
  - intros Hok Hrej. rewrite main_checked by done.
    erewrite try_catch_caught.
    2: { unfold main_try. rewrite bind_mkdir by done.
         erewrite bind_mkdir_rejected by done. reflexivity. }
    rewrite main_catch_run. reflexivity.
Qed.

(** X2.  When both checks pass, the directories are created and discovery
    is rejected, the run prints the message of that error and exits with
    status 1: no file is opened or sent to the provider, no count is
    printed and the output files are as they were. *)
Theorem discovery_failure_is_fatal (w : World) (files : gmap string string)
    (error : Error) :
  passes_checks w ->
  mkdir w (SOURCE_DIR w) = Fulfilled tt ->
  mkdir w (OUTPUT_DIR w) = Fulfilled tt ->
  findAudioFiles (SOURCE_DIR w) (source w) = Rejected error ->
  main w files =
  {| completion := Exit 1;
     trace := preamble w ++ fatal_report w error;
     output := files |}.
Proof.
  intros Hchecks Hsrc Hout Hfind. rewrite main_checked by done.
  erewrite try_catch_caught.
  2: { unfold main_try. rewrite !bind_mkdir by done.
       rewrite bind_emit, bind_emit, Hfind. cbn [await]. rewrite bind_throw.
       reflexivity. }
  rewrite main_catch_run. unfold preamble, opening, prepend.
  cbn [completion trace output]. f_equal.
  rewrite <- !app_assoc. reflexivity.
Qed.

Lemma directory_creation_failure_is_fatal_witness :
  exit_status (completion (main no_output_directory ∅)) = 1 ∧
  calls (trace (main no_output_directory ∅)) = [].
Proof.
  pose proof (proj2 (directory_creation_failure_is_fatal no_output_directory ∅
                       EACCES (conj eq_refl eq_refl)) eq_refl eq_refl) as Hrun.
  rewrite Hrun. split; reflexivity.
Defined.

Lemma discovery_failure_is_fatal_witness :
  exit_status (completion (main locked_directory ∅)) = 1 ∧
  calls (trace (main locked_directory ∅)) = [].
Proof.
  rewrite (discovery_failure_is_fatal locked_directory ∅ EACCES
             (conj eq_refl eq_refl) eq_refl eq_refl eq_refl).
  split; reflexivity.
Defined.



(** ** How runs complete *)

Section Ends.

Lemma ends_ret {A} throws (a : A) : ends throws (ret a).
Proof. by intros files. Qed.

Lemma ends_emit throws e : ends throws (emit e).
Proof. by intros files. Qed.

Lemma ends_exit {A} throws code : code <= 1 -> ends throws (@process_exit A code).
Proof. by intros Hcode files. Qed.

Lemma ends_await {A} (p : Settled A) : ends true (await p).
Proof. by destruct p; intros files. Qed.

Lemma ends_weaken {A} (m : Run A) : ends false m -> ends true m.
Proof.
  intros Hm files. specialize (Hm files).
  by destruct (completion (m files)).
Qed.

Lemma ends_bind {A B} throws (m : Run A) (k : A -> Run B) :
  ends throws m -> (forall a, ends throws (k a)) -> ends throws (bind m k).
Proof.
  intros Hm Hk files. unfold bind. specialize (Hm files).
  destruct (m files) as [[a|error|code] t files']; cbn in *; try done.
  apply Hk.
Qed.

(** A handler that never throws makes the whole statement never throw,
    whatever the body does. *)
Lemma ends_try_catch {A} throws (body : Run A) handler :
  ends true body -> (forall error, ends throws (handler error)) ->
  ends throws (try_catch body handler).
Proof.
  intros Hb Hh files. unfold try_catch. specialize (Hb files).
  destruct (body files) as [[a|error|code] t files']; cbn in *; try done.
  apply Hh.
Qed.

Lemma ends_when throws cond body : ends throws body -> ends throws (when cond body).
Proof. destruct cond; [done|]. intros _. apply ends_ret. Qed.

Lemma ends_forEach {A} throws (l : list A) f :
  (forall x, ends throws (f x)) -> ends throws (forEach l f).
Proof.
  intros Hf. induction l as [|x l IH]; cbn [forEach].
  - apply ends_ret.
  - apply ends_bind; [apply Hf|]. intros _. apply IH.
Qed.

Lemma ends_transcribeAudio w filePath model language prompt :
  ends false (transcribeAudio w filePath model language prompt).
Proof.
  unfold transcribeAudio. apply ends_try_catch.
  - repeat (first [ apply ends_bind | apply ends_emit | apply ends_await
                  | apply ends_ret | intros ? ]).
  - intros error.
    repeat (first [ apply ends_bind | apply ends_emit | apply ends_when
                  | apply ends_ret | intros ? ]).
Qed.

Lemma ends_iteration w audioFiles i audioFile successCount :
  ends true (iteration w audioFiles i audioFile successCount).
Proof.
  unfold iteration, fsPromises_writeFile.
  apply ends_bind; [apply ends_emit|]. intros _.
  apply ends_bind; [apply ends_weaken, ends_transcribeAudio|].
  intros [text|]; [destruct (Js.truthy_string text)|];
    repeat (first [ apply ends_bind | apply ends_emit | apply ends_await
                  | apply ends_ret | intros ? ]);
    exact I.
Qed.

Lemma ends_loop w audioFiles i rest successCount :
  ends true (loop w audioFiles i rest successCount).
Proof.
  revert i successCount. induction rest as [|f rest IH]; intros i sc.
  - apply ends_ret.
  - cbn [loop]. apply ends_bind; [apply ends_iteration|]. intros sc'. apply IH.
Qed.

End Ends.

(** X4.  [main] never lets an exception escape and never exits with a
    status other than 0 or 1, whatever the key, the options, the file
    system and the provider do: every run of [main] returns, or calls
    [process.exit] with 0 or 1. *)
Theorem main_returns_or_exits (w : World) (files : gmap string string) :
  (forall error, completion (main w files) <> Throw error) ∧
  exit_status (completion (main w files)) <= 1.
Proof.
  assert (Hends : ends false (main w)).
  { unfold main, fsPromises_mkdir.
    repeat (first [ apply ends_loop
                  | apply ends_try_catch | apply ends_bind
                  | apply ends_emit | apply ends_await | apply ends_ret
                  | apply ends_when | apply ends_exit; lia
                  | apply ends_forEach; intros [? ?] | intros ? ]). }
  specialize (Hends files).
  destruct (completion (main w files)) as [[]|error|code]; cbn in *;
    split; try done; lia.
Qed.

(** ** The events a run can make *)

Section Footprint.
Variable w : World.
Variable P : Event -> Prop.

Hypothesis P_console : forall e, is_console e = true -> P e.
Hypothesis P_mkdir_source : P (fs_mkdir (SOURCE_DIR w)).
Hypothesis P_mkdir_output : P (fs_mkdir (OUTPUT_DIR w)).
Hypothesis P_readdir : P (fs_readdir (SOURCE_DIR w)).

(** The files that discovery can hand to the loop. *)
Let discovered (audioFile : string) : Prop :=
  ∃ audioFiles,
    findAudioFiles (SOURCE_DIR w) (source w) = Fulfilled audioFiles ∧
    audioFile ∈ audioFiles.

Hypothesis P_open : forall audioFile,
  discovered audioFile -> P (fs_createReadStream audioFile).
Hypothesis P_create : forall audioFile,
  discovered audioFile ->
  P (transcriptions_create
       (create_params audioFile (opt_model (options w))
          (opt_language (options w)) (opt_prompt (options w)))).
Hypothesis P_write : forall audioFile text,
  discovered audioFile -> text <> "" ->
  P (fs_writeFile (outputFile w audioFile) text).

Lemma always_bind_await {A B} (p : Settled A) (k : A -> Run B) :
  (forall a, p = Fulfilled a -> always P (k a)) -> always P (bind (await p) k).
Proof.
  intros Hk files. destruct p as [a|error].
  - rewrite bind_await_fulfilled. by apply Hk.
  - cbn [await]. rewrite bind_throw. constructor.
Qed.

Ltac events :=
  repeat (first [ apply always_try_catch | apply always_bind
                | apply always_emit | apply always_await | apply always_ret
                | apply always_when | apply always_exit
                | apply always_forEach; intros [? ?] | intros ? ]);
  try (apply P_console; reflexivity).

Lemma iteration_events audioFiles i audioFile successCount :
  discovered audioFile ->
  always P (iteration w audioFiles i audioFile successCount).
Proof.
  intros Hd. unfold iteration, fsPromises_writeFile, transcribeAudio.
  apply always_bind; [events|]. intros _.
  apply always_bind; [events; by (apply P_open || apply P_create)|].
  intros [text|]; [destruct (Js.truthy_string text) eqn:Htext|]; events.
  apply P_write; [done|]. intros ->. done.
Qed.

Lemma loop_events audioFiles i rest successCount :
  (forall audioFile, audioFile ∈ rest -> discovered audioFile) ->
  always P (loop w audioFiles i rest successCount).
Proof.
  revert i successCount. induction rest as [|f rest IH]; intros i sc Hd.
  - apply always_ret.
  - cbn [loop]. apply always_bind.
    + apply iteration_events, Hd. by left.
    + intros sc'. apply IH. intros g Hg. apply Hd. by right.
Qed.

Lemma main_events : always P (main w).
Proof.
  unfold main. do 6 (apply always_bind; [events|]; intros _).
  apply always_try_catch; [|events].
  unfold fsPromises_mkdir.
  do 4 (apply always_bind; [by events|]; intros _).
  apply always_bind_await. intros audioFiles Hfind.
  do 3 (apply always_bind; [events|]; intros _).
  apply always_bind; [|events].
  apply loop_events. intros f Hf. by exists audioFiles.
Qed.

End Footprint.

(** ** More on paths *)

Section MorePaths.
Import Path.

Lemma app_string_assoc a b c : (a +:+ b) +:+ c = a +:+ b +:+ c.
Proof.
  induction a as [|x a IH]; [done|].
  change (String x ((a +:+ b) +:+ c) = String x (a +:+ b +:+ c)).
  by rewrite IH.
Qed.

Lemma rsplit_None_cons sep c s :
  rsplit sep (String c s) = None <-> c <> sep ∧ rsplit sep s = None.
Proof.
  cbn [rsplit]. destruct (rsplit sep s) as [[a b]|].
  - split; [done|]. by intros [_ ?].
  - destruct (Ascii.eqb c sep) eqn:Hc.
    + apply Ascii.eqb_eq in Hc. split; [done|]. by intros [? _].
    + apply Ascii.eqb_neq in Hc. done.
Qed.

Lemma rsplit_None_app sep a b :
  rsplit sep (a +:+ b) = None <-> rsplit sep a = None ∧ rsplit sep b = None.
Proof.
  induction a as [|c a IH].
  - change (EmptyString +:+ b) with b. cbn [rsplit]. naive_solver.
  - change (String c a +:+ b) with (String c (a +:+ b)).
    rewrite !rsplit_None_cons, IH. naive_solver.
Qed.

(** The last portion of a path never holds a slash. *)
Lemma basename_is_slashless p : slashless (basename p).
Proof.
  unfold slashless, basename.
  destruct (rsplit slash p) as [[a b]|] eqn:Hp; [|done].
  by apply rsplit_Some in Hp as [_ Hb].
Qed.

Lemma strip_suffix_Some suffix s r :
  strip_suffix suffix s = Some r -> s = r +:+ suffix.
Proof.
  revert r. induction s as [|c s IH]; intros r.
  - cbn [strip_suffix]. destruct (String.eqb "" suffix) eqn:Heq; [|done].
    apply String.eqb_eq in Heq as <-. by intros [= <-].
  - cbn [strip_suffix].
    destruct (String.eqb (String c s) suffix) eqn:Heq.
    + apply String.eqb_eq in Heq as <-. by intros [= <-].
    + destruct (strip_suffix suffix s) as [r'|]; [|done].
      intros [= <-]. by rewrite (IH r' eq_refl) at 1.
Qed.

Lemma basename_suffix_is_slashless p suffix :
  slashless (basename_suffix p suffix).
Proof.
  unfold basename_suffix.
  destruct (negb _ && _); [|apply basename_is_slashless].
  destruct (String.eqb suffix p); [done|].
  destruct (strip_suffix suffix (basename p)) as [r|] eqn:Hr;
    [|apply basename_is_slashless].
  destruct r as [|c r]; [apply basename_is_slashless|].
  apply strip_suffix_Some in Hr.
  pose proof (basename_is_slashless p) as Hb. unfold slashless in *.
  rewrite Hr in Hb. by apply rsplit_None_app in Hb as [? _].
Qed.

(** Whatever the input path, the output path names a [.txt] file directly
    in the output directory. *)
Lemma outputFile_flat w audioFile : flat_txt w (outputFile w audioFile).
Proof.
  exists (basename_suffix audioFile (extname audioFile)).
  split; [done|]. unfold slashless. apply rsplit_None_app.
  split; [apply basename_suffix_is_slashless|done].
Qed.

End MorePaths.

(** X5.  Whatever the world, every write of a run of [main] puts a text
    that is not empty in a file whose name ends in [.txt] and that lies
    directly in the output directory: nothing is written in the source
    tree, in a subdirectory of the output directory, or outside it. *)
Theorem writes_are_confined (w : World) (files : gmap string string)
    (path data : string) :
  fs_writeFile path data ∈ trace (main w files) ->
  (∃ stem, path = OUTPUT_DIR w +:+ "/" +:+ stem +:+ ".txt" ∧
           slashless (stem +:+ ".txt")) ∧
  Path.basename path <> "" ∧
  data <> "".
Proof.
  intros Hin.
  assert (Hall : always (confined w) (main w)).
  { apply main_events; try done.
    - by intros [].
    - intros audioFile text _ Htext. split; [apply outputFile_flat|done]. }
  specialize (Hall files). rewrite Forall_forall in Hall.
  destruct (Hall _ Hin) as [(stem & -> & Hstem) Hdata].
  split; [by exists stem|]. split; [|done].
  change (OUTPUT_DIR w +:+ "/" +:+ stem +:+ ".txt")
    with (Path.join (OUTPUT_DIR w) (stem +:+ ".txt")).
  rewrite basename_join by done. by destruct stem.
Qed.

Lemma writes_are_confined_witness :
  ∃ stem, "/app/transcriptions/a.txt" = OUTPUT_DIR scenario +:+ "/" +:+ stem +:+ ".txt".
Proof.
  destruct (writes_are_confined scenario ∅ "/app/transcriptions/a.txt" "hello")
    as [(stem & Hpath & _) _].
  - apply (bool_decide_unpack _). vm_compute. exact I.
  - by exists stem.
Defined.

(** X6.  Whatever the world, every request of a run of [main] carries the
    model and the prompt of the options and is about a file that discovery
    returned; when the directories of the source tree can all be listed,
    the name of that file has a supported extension. *)
Theorem only_discovered_files_are_sent (w : World) (files : gmap string string)
    (request : Request) :
  transcriptions_create request ∈ trace (main w files) ->
  req_model request = opt_model (options w) ∧
  req_prompt request = opt_prompt (options w) ∧
  (∃ audioFiles,
     findAudioFiles (SOURCE_DIR w) (source w) = Fulfilled audioFiles ∧
     req_file request ∈ audioFiles) ∧
  (forall tree,
     source w = Fulfilled tree -> forallb well_formed tree = true ->
     supported (Path.basename (req_file request)) = true).
Proof.
  intros Hin.
  assert (Hall : always (fun e => as_configured w e ∧ from_discovery w e) (main w)).
  { apply main_events; try done. by intros []. }
  specialize (Hall files). rewrite Forall_forall in Hall.
  destruct (Hall _ Hin) as [[Hmodel Hprompt] (audioFiles & Hfind & Hfile)].
  split; [done|]. split; [done|]. split; [by exists audioFiles|].
  intros tree Hsource Hwf. rewrite Hsource in Hfind.
  destruct (discovered_shape _ _ _ _ Hwf Hfind Hfile)
    as (parent & name & -> & Hname & Hsup).
  by rewrite basename_join.
Qed.

Lemma only_discovered_files_are_sent_witness :
  supported (Path.basename "/app/source/a.wav") = true.
Proof.
  refine (proj2 (proj2 (proj2 (only_discovered_files_are_sent scenario ∅
            {| req_file := "/app/source/a.wav"; req_model := "whisper-1";
               req_language := None; req_prompt := None |} _)))
            [ File "a.wav"; File "b.mp3" ] eq_refl eq_refl).
  apply (bool_decide_unpack _). vm_compute. exact I.
Defined.

(** ** The debug option *)

Section Debug.

Lemma without_debug_app t1 t2 :
  without_debug (t1 ++ t2) = without_debug t1 ++ without_debug t2.
Proof. apply filter_app. Qed.

Lemma more_bind {A B} (m1 m0 : Run A) (k1 k0 : A -> Run B) :
  only_more_output m1 m0 -> (forall a, only_more_output (k1 a) (k0 a)) ->
  only_more_output (bind m1 k1) (bind m0 k0).
Proof.
  intros Hm Hk files. unfold bind. destruct (Hm files) as (Hc & Ho & Ht).
  destruct (m1 files) as [c1 t1 o1], (m0 files) as [c0 t0 o0].
  cbn in *. subst c0 o0 t0.
  destruct c1 as [a|error|code]; cbn; try done.
  destruct (Hk a o1) as (Hc' & Ho' & Ht').
  by rewrite without_debug_app, Hc', Ho', Ht'.
Qed.

Lemma more_try_catch {A} (b1 b0 : Run A) h1 h0 :
  only_more_output b1 b0 -> (forall error, only_more_output (h1 error) (h0 error)) ->
  only_more_output (try_catch b1 h1) (try_catch b0 h0).
Proof.
  intros Hb Hh files. unfold try_catch. destruct (Hb files) as (Hc & Ho & Ht).
  destruct (b1 files) as [c1 t1 o1], (b0 files) as [c0 t0 o0].
  cbn in *. subst c0 o0 t0.
  destruct c1 as [a|error|code]; cbn; try done.
  destruct (Hh error o1) as (Hc' & Ho' & Ht').
  by rewrite without_debug_app, Hc', Ho', Ht'.
Qed.

(** A computation that prints no debug line does what it does. *)
Lemma more_same {A} (m : Run A) :
  always (fun e => debug_only e = false) m -> only_more_output m m.
Proof.
  intros Hm files. split; [done|]. split; [done|].
  specialize (Hm files). unfold without_debug.
  induction Hm as [|e t He _ IH]; [done|].
  by rewrite filter_cons, decide_True, IH.
Qed.

Lemma more_emit e : debug_only e = false -> only_more_output (emit e) (emit e).
Proof. intros He. apply more_same. by apply always_emit. Qed.

(** Printing debug lines is doing nothing. *)
Lemma more_debug_line e (rest : Run unit) :
  debug_only e = true -> only_more_output rest (ret tt) ->
  only_more_output (emit e ;; rest) (ret tt).
Proof.
  intros He Hrest files. rewrite bind_emit.
  destruct (Hrest files) as (Hc & Ho & Ht).
  unfold prepend, without_debug in *. cbn [completion trace output app] in *.
  split; [done|]. split; [done|].
  rewrite filter_cons. rewrite decide_False; [done|]. by rewrite He.
Qed.

Lemma more_debug_last e :
  debug_only e = true -> only_more_output (emit e) (ret tt).
Proof.
  intros He files. unfold without_debug.
  cbn [emit ret completion trace output].
  split; [done|]. split; [done|].
  rewrite filter_cons. rewrite decide_False; [done|]. by rewrite He.
Qed.

Variable w : World.

Ltac same :=
  apply more_same;
  repeat (first [ apply always_try_catch | apply always_bind
                | apply always_emit | apply always_await | apply always_ret
                | apply always_when | apply always_exit
                | apply always_forEach; intros [? ?] | intros ? ]);
  reflexivity.

Lemma more_transcribeAudio filePath model language prompt :
  only_more_output
    (transcribeAudio (with_debug true w) filePath model language prompt)
    (transcribeAudio (with_debug false w) filePath model language prompt).
Proof.
  unfold transcribeAudio. apply more_try_catch; [same|].
  intros error. cbn [with_debug options opt_debug when].
  apply more_bind; [same|]. intros _.
  apply more_bind; [same|]. intros _.
  apply more_bind; [by apply more_debug_last|]. intros _. same.
Qed.

Lemma more_iteration audioFiles i audioFile successCount :
  only_more_output
    (iteration (with_debug true w) audioFiles i audioFile successCount)
    (iteration (with_debug false w) audioFiles i audioFile successCount).
Proof.
  unfold iteration.
  apply more_bind; [same|]. intros _.
  apply more_bind; [apply more_transcribeAudio|].
  intros [text|]; [destruct (Js.truthy_string text)|];
    unfold fsPromises_writeFile; same.
Qed.

Lemma more_loop audioFiles i rest successCount :
  only_more_output
    (loop (with_debug true w) audioFiles i rest successCount)
    (loop (with_debug false w) audioFiles i rest successCount).
Proof.
  revert i successCount. induction rest as [|f rest IH]; intros i sc.
  - same.
  - cbn [loop]. apply more_bind; [apply more_iteration|]. intros sc'. apply IH.
Qed.

Lemma more_main :
  only_more_output (main (with_debug true w)) (main (with_debug false w)).
Proof.
  unfold main. cbn [with_debug options opt_debug OPENAI_API_KEY opt_model when].
  do 5 (apply more_bind; [same|]; intros _).
  apply more_bind.
  { repeat (apply more_debug_line; [done|]). by apply more_debug_last. }
  intros _. apply more_try_catch.
  - unfold fsPromises_mkdir.
    do 4 (apply more_bind; [same|]; intros _).
    apply more_bind; [same|]. intros audioFiles.
    do 3 (apply more_bind; [same|]; intros _).
    apply more_bind; [apply more_loop|]. intros successCount. same.
  - intros error.
    apply more_bind; [same|]. intros _.
    apply more_bind; [same|]. intros _.
    apply more_bind; [by apply more_debug_last|]. intros _. same.
Qed.

End Debug.

Lemma calls_without_debug (t : list Event) : calls (without_debug t) = calls t.
Proof.
  unfold without_debug. induction t as [|e t IH]; [done|].
  rewrite filter_cons. destruct (decide (debug_only e = false)) as [He|He].
  - destruct e; cbn [calls]; by rewrite ?IH.
  - destruct e; try done; cbn [calls]; by rewrite ?IH.
Qed.

(** X7.  [--debug] changes nothing but what is printed: with the same key,
    options, file system and provider, the run with [--debug] completes as
    the run without it, leaves the same output files, and its trace is the
    trace of the run without it with debug lines added (the option values,
    the two folders, and the full error after each error message). *)
Theorem debug_only_adds_lines (w : World) (files : gmap string string) :
  completion (main (with_debug true w) files)
    = completion (main (with_debug false w) files) ∧
  output (main (with_debug true w) files)
    = output (main (with_debug false w) files) ∧
  without_debug (trace (main (with_debug true w) files))
    = trace (main (with_debug false w) files) ∧
  calls (trace (main (with_debug true w) files))
    = calls (trace (main (with_debug false w) files)).
Proof.
  destruct (more_main w files) as (Hc & Ho & Ht).
  split; [done|]. split; [done|]. split; [done|].
  rewrite <- Ht. symmetry. apply calls_without_debug.
Qed.

(** ** Discovery on any tree *)

Section AnyTree.

Lemma for_of_any dir files audioFiles :
  Forall (fun file => forall dir,
            visit dir file =
            match unreadable file with
            | [] => Fulfilled
                      (filter (fun e => supported e.2 = true) (entries dir file)).*1
            | error :: _ => Rejected error
            end) files ->
  for_of (visit dir) files audioFiles =
  match flat_map unreadable files with
  | [] => Fulfilled (audioFiles ++ (with_supported dir files).*1)
  | error :: _ => Rejected error
  end.
Proof.
  unfold with_supported, tree_files.
  intros Hall. revert audioFiles.
  induction Hall as [|file files Hfile _ IH]; intros audioFiles.
  - cbn. by rewrite app_nil_r.
  - cbn [for_of flat_map]. rewrite Hfile.
    destruct (unreadable file) as [|error errors]; [|done].
    rewrite IH. cbn [app]. destruct (flat_map unreadable files); [|done].
    by rewrite filter_app, fmap_app, app_assoc.
Qed.

Lemma visit_any file dir :
  visit dir file =
  match unreadable file with
  | [] => Fulfilled (filter (fun e => supported e.2 = true) (entries dir file)).*1
  | error :: _ => Rejected error
  end.
Proof.
  revert dir.
  induction file as [name|name files IH|name error] using Dirent_ind; intros dir.
  - cbn [visit entries dirent_name unreadable]. rewrite filter_cons. cbn [snd].
    destruct (supported name); [rewrite decide_True by done|
                                rewrite decide_False by done]; done.
  - cbn [visit entries dirent_name unreadable].
    rewrite for_of_any by done. by destruct (flat_map unreadable files).
  - done.
Qed.

End AnyTree.

(** X8.  On any tree, discovery is rejected exactly when some directory
    cannot be listed, with the error of the first such directory in the
    order of the walk and with no partial list; otherwise it returns the
    paths of the entries with a supported extension, in listing order. *)
Theorem discovery_on_any_tree (dir : string) (files : list Dirent) :
  findAudioFiles dir (Fulfilled files) =
  match flat_map unreadable files with
  | [] => Fulfilled (with_supported dir files).*1
  | error :: _ => Rejected error
  end.
Proof.
  cbn [findAudioFiles]. rewrite for_of_any; [done|].
  apply Forall_forall. intros file _ dir'. apply visit_any.
Qed.

Example discovery_on_locked_tree :
  findAudioFiles "/app/source" (Fulfilled locked_tree) = Rejected EACCES.
Proof. reflexivity. Qed.

(** ** Paths below the source directory *)

Section Below.
Import Path.

Lemma strip_prefix_app a b : strip_prefix a (a +:+ b) = Some b.
Proof.
  induction a as [|c a IH]; [by destruct b|].
  change (String c a +:+ b) with (String c (a +:+ b)).
  cbn [strip_prefix]. by rewrite Ascii.eqb_refl.
Qed.

Lemma join_join dir name rest :
  join (join dir name) rest = join dir (join name rest).
Proof. unfold join. by rewrite !app_string_assoc. Qed.

Lemma relative_join dir rest : relative dir (join dir rest) = rest.
Proof.
  unfold relative, join. rewrite <- app_string_assoc.
  by rewrite strip_prefix_app.
Qed.

(** Every entry of a tree below [dir] has a path of the form
    [dir/rest]. *)
Lemma entries_below file :
  forall dir path name,
    (path, name) ∈ entries dir file -> ∃ rest, path = join dir rest.
Proof.
  induction file as [name|name files IH|name error] using Dirent_ind;
    intros dir path name'.
  - cbn. intros [= -> ->]%list_elem_of_singleton. by exists name.
  - cbn [entries]. rewrite Forall_forall in IH.
    intros (f & Hf & Hin)%list_elem_of_In%in_flat_map.
    apply list_elem_of_In in Hin. apply list_elem_of_In in Hf.
    destruct (IH f Hf _ _ _ Hin) as [rest ->].
    exists (join name rest). apply join_join.
  - by intros ?%elem_of_nil.
Qed.

End Below.

(** X9.  Every path that discovery returns for [dir] lies below [dir], and
    the relative path shown while the file is processed leads back to it:
    joining [dir] with [path.relative(dir, audioFile)] gives
    [audioFile]. *)
Theorem relative_path_round_trip (dir : string) (listing : Settled (list Dirent))
    (audioFiles : list string) (audioFile : string) :
  findAudioFiles dir listing = Fulfilled audioFiles ->
  audioFile ∈ audioFiles ->
  Path.join dir (Path.relative dir audioFile) = audioFile ∧
  audioFile = dir +:+ "/" +:+ Path.relative dir audioFile.
Proof.
  intros Hfind Hin. destruct listing as [files|error]; [|done].
  cbn [findAudioFiles] in Hfind. rewrite for_of_any in Hfind.
  2: { apply Forall_forall. intros file _ dir'. apply visit_any. }
  destruct (flat_map unreadable files); [|done]. injection Hfind as <-.
  apply list_elem_of_fmap in Hin as ([path name] & -> & [_ Hin]%list_elem_of_filter).
  apply list_elem_of_In, in_flat_map in Hin as (f & _ & Hin).
  apply list_elem_of_In, entries_below in Hin as [rest ->].
  cbn [fst]. by rewrite relative_join.
Qed.

Lemma relative_path_round_trip_witness :
  Path.join "/app/source" (Path.relative "/app/source" "/app/source/sub/deep/c.tar.webm")
  = "/app/source/sub/deep/c.tar.webm".
Proof.
  refine (proj1 (relative_path_round_trip "/app/source" (Fulfilled sample_tree)
                   [ "/app/source/a.wav"; "/app/source/sub/B.MP3";
                     "/app/source/sub/deep/c.tar.webm" ]
                   "/app/source/sub/deep/c.tar.webm" eq_refl _)).
  apply (bool_decide_unpack _). vm_compute. exact I.
Defined.

(** ** Upper and lower case *)

Section Case.
Import Path.









End Case.



(** ** What stays in the output directory *)

(** X11.  When several files transcribed successfully share an output
    path, the file holds the transcript of the last of them in the order
    of discovery: in a run that passes both checks, discovers
    [l1 ++ audioFile :: l2] and can write every transcript, the transcript
    of [audioFile] is the content of its output file at the end when no
    successful file of [l2] has the same output path. *)
Theorem last_transcript_wins (w : World) (files : gmap string string)
    (l1 l2 : list string) (audioFile text : string) :
  passes_checks w ->
  discovers w (l1 ++ audioFile :: l2) ->
  writable w (l1 ++ audioFile :: l2) ->
  transcript w audioFile = Some text ->
  (forall later, later ∈ l2 -> succeeds w later = true ->
                 outputFile w later <> outputFile w audioFile) ->
  output (main w files) !! outputFile w audioFile = Some text.
Proof.
  intros Hchecks Hdisc Hwrite Ht Hlater.
  rewrite (main_run w (l1 ++ audioFile :: l2) files) by done.
  rewrite completed_nonempty by (by destruct l1).
  cbn [prepend output]. rewrite written_app. cbn [written]. rewrite Ht.
  rewrite written_lookup_other; [apply lookup_insert_eq|].
  intros (later & Heq & [Hs Hin]%list_elem_of_filter)%list_elem_of_fmap.
  by apply (Hlater later).
Qed.

Lemma last_transcript_wins_witness :
  output (main two_takes ∅) !! "/app/transcriptions/take.txt" = Some "second".
Proof.
  refine (last_transcript_wins two_takes ∅
            [ "/app/source/take.wav"; "/app/source/other.wav" ] []
            "/app/source/take.WAV" "second" _ _ _ _ _).
  - split; reflexivity.
  - repeat split; reflexivity.
  - repeat constructor.
  - reflexivity.
  - by intros later ?%elem_of_nil.
Defined.

Section Untouched.
Variable path : string.

Lemma untouched_ret {A} (a : A) : untouched path (ret a).
Proof. by intros files. Qed.

Lemma untouched_emit e : untouched path (emit e).
Proof. by intros files. Qed.

Lemma untouched_exit {A} code : untouched path (@process_exit A code).
Proof. by intros files. Qed.

Lemma untouched_await {A} (p : Settled A) : untouched path (await p).
Proof. by destruct p; intros files. Qed.

Lemma untouched_bind {A B} (m : Run A) (k : A -> Run B) :
  untouched path m -> (forall a, untouched path (k a)) ->
  untouched path (bind m k).
Proof.
  intros Hm Hk files. unfold bind. specialize (Hm files).
  destruct (m files) as [[a|error|code] t files']; cbn in *; try done.
  by rewrite Hk.
Qed.

Lemma untouched_bind_await {A B} (p : Settled A) (k : A -> Run B) :
  (forall a, p = Fulfilled a -> untouched path (k a)) ->
  untouched path (bind (await p) k).
Proof.
  intros Hk files. destruct p as [a|error].
  - rewrite bind_await_fulfilled. by apply Hk.
  - cbn [await]. by rewrite bind_throw.
Qed.

Lemma untouched_try_catch {A} (body : Run A) handler :
  untouched path body -> (forall error, untouched path (handler error)) ->
  untouched path (try_catch body handler).
Proof.
  intros Hb Hh files. unfold try_catch. specialize (Hb files).
  destruct (body files) as [[a|error|code] t files']; cbn in *; try done.
  by rewrite Hh.
Qed.

Lemma untouched_when cond body :
  untouched path body -> untouched path (when cond body).
Proof. destruct cond; [done|]. intros _. apply untouched_ret. Qed.

Lemma untouched_forEach {A} (l : list A) f :
  (forall x, untouched path (f x)) -> untouched path (forEach l f).
Proof.
  intros Hf. induction l as [|x l IH]; cbn [forEach].
  - apply untouched_ret.
  - apply untouched_bind; [apply Hf|]. intros _. apply IH.
Qed.

Variable w : World.

Ltac leave_alone :=
  repeat (first [ apply untouched_try_catch | apply untouched_bind
                | apply untouched_emit | apply untouched_await
                | apply untouched_ret | apply untouched_when
                | apply untouched_exit
                | apply untouched_forEach; intros [? ?] | intros ? ]).

Lemma untouched_iteration audioFiles i audioFile successCount :
  (forall text, transcript w audioFile = Some text ->
                path <> outputFile w audioFile) ->
  untouched path (iteration w audioFiles i audioFile successCount).
Proof.
  intros Hother files. unfold iteration. rewrite bind_emit.
  erewrite bind_normal by apply transcribeAudio_run.
  cbn [prepend output]. unfold transcript, answer in Hother.
  destruct (create w _) as [text|error]; [|done].
  destruct (Js.truthy_string text); [|done].
  unfold fsPromises_writeFile. rewrite bind_assoc, bind_emit, bind_assoc.
  cbn [prepend output].
  destruct (writeFile w (outputFile w audioFile)) as [[]|error].
  - rewrite bind_await_fulfilled. unfold bind. cbn.
    apply lookup_insert_ne. intros Heq. by apply (Hother text).
  - cbn [await]. by rewrite bind_throw.
Qed.

Lemma untouched_loop audioFiles i rest successCount :
  (forall audioFile text,
     audioFile ∈ rest -> transcript w audioFile = Some text ->
     path <> outputFile w audioFile) ->
  untouched path (loop w audioFiles i rest successCount).
Proof.
  revert i successCount. induction rest as [|f rest IH]; intros i sc Hother.
  - apply untouched_ret.
  - cbn [loop]. apply untouched_bind.
    + apply untouched_iteration. intros text. apply Hother. by left.
    + intros sc'. apply IH. intros g text Hg. apply Hother. by right.
Qed.

Lemma untouched_main :
  (forall audioFiles audioFile text,
     findAudioFiles (SOURCE_DIR w) (source w) = Fulfilled audioFiles ->
     audioFile ∈ audioFiles -> transcript w audioFile = Some text ->
     path <> outputFile w audioFile) ->
  untouched path (main w).
Proof.
  intros Hother. unfold main.
  do 6 (apply untouched_bind; [leave_alone|]; intros _).
  apply untouched_try_catch; [|leave_alone].
  unfold fsPromises_mkdir.
  do 4 (apply untouched_bind; [leave_alone|]; intros _).
  apply untouched_bind_await. intros audioFiles Hfind.
  do 3 (apply untouched_bind; [leave_alone|]; intros _).
  apply untouched_bind; [|leave_alone].
  apply untouched_loop. intros f text. by apply Hother.
Qed.

End Untouched.

(** X12.  Whatever the world, and however the run ends, a run of [main]
    leaves every file alone that is not the output file of a discovered
    file with a transcript: it is not created, changed or removed.  In
    particular no file outside the output directory, no file in a
    subdirectory of it and no file whose name does not end in [.txt] is
    ever touched. *)
Theorem other_files_are_left_alone (w : World) (files : gmap string string)
    (path : string) :
  ((forall audioFiles audioFile text,
      findAudioFiles (SOURCE_DIR w) (source w) = Fulfilled audioFiles ->
      audioFile ∈ audioFiles -> transcript w audioFile = Some text ->
      path <> outputFile w audioFile) ->
   output (main w files) !! path = files !! path) ∧
  (~ flat_txt w path -> output (main w files) !! path = files !! path).
Proof.
  split.
  - intros Hother. by apply untouched_main.
  - intros Hflat. apply untouched_main.
    intros audioFiles audioFile text _ _ _ ->.
    apply Hflat, outputFile_flat.
Qed.

Lemma other_files_are_left_alone_witness :
  output (main scenario {[ "/app/transcriptions/b.txt" := "kept" ]})
    !! "/app/transcriptions/b.txt" = Some "kept".
Proof.
  refine (proj1 (other_files_are_left_alone scenario
                   {[ "/app/transcriptions/b.txt" := "kept" ]}
                   "/app/transcriptions/b.txt") _).
  intros audioFiles audioFile text [= <-] Hin Ht.
  repeat (apply elem_of_cons in Hin as [->|Hin]; [by vm_compute in Ht |- *|]).
  by apply elem_of_nil in Hin.
Defined.

(** ** Every file once *)

Section Once.
Import Path.

Lemma join_cancel dir a b : join dir a = join dir b -> a = b.
Proof.
  unfold join. induction dir as [|c dir IH].
  - change (String slash a = String slash b -> a = b). by intros [= ?].
  - change (String c (dir +:+ "/" +:+ a) = String c (dir +:+ "/" +:+ b) -> a = b).
    intros [= Heq]. by apply IH.
Qed.

Lemma join_has_slash name rest : ~ slashless (join name rest).
Proof.
  unfold slashless, join. intros [_ Hslash]%rsplit_None_app.
  change ("/" +:+ rest) with (String slash rest) in Hslash.
  by apply rsplit_None_cons in Hslash as [? _].
Qed.

(** The first portion of a relative path determines its name. *)
Lemma join_first n1 n2 r1 r2 :
  slashless n1 -> slashless n2 -> join n1 r1 = join n2 r2 -> n1 = n2.
Proof.
  unfold slashless, join. revert n2.
  induction n1 as [|c n1 IH]; intros [|c' n2] H1 H2 Heq; try done.
  - injection Heq as <- _. by apply rsplit_None_cons in H2 as [? _].
  - injection Heq as -> _. by apply rsplit_None_cons in H1 as [? _].
  - injection Heq as -> Heq.
    apply rsplit_None_cons in H1 as [_ H1].
    apply rsplit_None_cons in H2 as [_ H2].
    by rewrite (IH n2 H1 H2 Heq).
Qed.

(** Every path below an entry starts with the name of the entry. *)
Lemma entries_headed file dir path name :
  (path, name) ∈ entries dir file ->
  path = join dir (dirent_name file)
  ∨ ∃ rest, path = join dir (join (dirent_name file) rest).
Proof.
  destruct file as [n|n [files|error]]; cbn [entries dirent_name].
  - intros [= -> ->]%list_elem_of_singleton. by left.
  - intros (f & Hf & Hin)%list_elem_of_In%in_flat_map.
    apply list_elem_of_In, entries_below in Hin as [rest ->].
    right. exists rest. apply join_join.
  - by intros ?%elem_of_nil.
Qed.

Lemma entries_apart f g dir path name name' :
  slashless (dirent_name f) -> slashless (dirent_name g) ->
  (path, name) ∈ entries dir f -> (path, name') ∈ entries dir g ->
  dirent_name f = dirent_name g.
Proof.
  intros Hf Hg [->|[r ->]]%entries_headed [Heq|[r' Heq]]%entries_headed.
  - by apply join_cancel in Heq.
  - apply join_cancel in Heq. rewrite Heq in Hf. by apply join_has_slash in Hf.
  - apply join_cancel in Heq. rewrite <- Heq in Hg. by apply join_has_slash in Hg.
  - apply join_cancel in Heq. by apply (join_first _ _ r r').
Qed.

Lemma tidy_slashless file : tidy file = true -> slashless (dirent_name file).
Proof.
  destruct file as [n|n [files|error]]; cbn [tidy dirent_name]; [|  |done].
  - by intros ?%bool_decide_eq_true.
  - by intros [[?%bool_decide_eq_true _]%andb_prop _]%andb_prop.
Qed.

Lemma flat_map_entries_NoDup dir files :
  NoDup (dirent_name <$> files) ->
  Forall (fun f => slashless (dirent_name f)) files ->
  Forall (fun f => NoDup (entries dir f).*1) files ->
  NoDup (flat_map (entries dir) files).*1.
Proof.
  intros Hnames Hslash Heach.
  induction files as [|f files IH]; [constructor|].
  cbn [flat_map]. rewrite fmap_app.
  rewrite fmap_cons in Hnames. apply NoDup_cons in Hnames as [Hf Hnames].
  apply Forall_cons in Hslash as [Hfs Hslash].
  apply Forall_cons in Heach as [Hfe Heach].
  apply NoDup_app. split; [done|]. split; [|by apply IH].
  intros path ([p n] & -> & Hin)%list_elem_of_fmap
              ([p' n'] & Heq & Hin')%list_elem_of_fmap.
  cbn [fst] in Heq. subst p'.
  apply list_elem_of_In, in_flat_map in Hin' as (g & Hg & Hin').
  apply list_elem_of_In in Hin'. apply list_elem_of_In in Hg.
  apply Hf. apply list_elem_of_fmap. exists g. split; [|done].
  rewrite Forall_forall in Hslash.
  by apply (entries_apart f g dir p n n'); [|apply Hslash|..].
Qed.

Lemma entries_NoDup file :
  tidy file = true -> forall dir, NoDup (entries dir file).*1.
Proof.
  induction file as [name|name files IH|name error] using Dirent_ind;
    intros Htidy dir.
  - cbn. apply NoDup_singleton.
  - cbn [tidy entries] in *.
    apply andb_prop in Htidy as [[_ Hnames%bool_decide_eq_true]%andb_prop Hall].
    rewrite forallb_forall in Hall.
    apply flat_map_entries_NoDup; [done|..]; apply Forall_forall; intros f Hf.
    + apply tidy_slashless, Hall. by apply list_elem_of_In.
    + rewrite Forall_forall in IH. apply IH; [done|].
      apply Hall. by apply list_elem_of_In.
  - done.
Qed.

End Once.

(** X13.  When no name holds a slash, every directory can be listed and no
    two entries of a directory have the same name, as on a real file
    system, discovery returns no path twice: every audio file is processed
    once. *)
Theorem discovery_returns_no_path_twice (dir : string) (files : list Dirent)
    (audioFiles : list string) :
  NoDup (dirent_name <$> files) ->
  forallb tidy files = true ->
  findAudioFiles dir (Fulfilled files) = Fulfilled audioFiles ->
  NoDup audioFiles.
Proof.
  intros Hnames Htidy Hfind. rewrite forallb_forall in Htidy.
  cbn [findAudioFiles] in Hfind. rewrite for_of_any in Hfind.
  2: { apply Forall_forall. intros file _ dir'. apply visit_any. }
  destruct (flat_map unreadable files); [|done]. injection Hfind as <-.
  unfold with_supported, tree_files.
  eapply sublist_NoDup; [|apply fmap_sublist, sublist_filter].
  apply flat_map_entries_NoDup; [done|..]; apply Forall_forall; intros f Hf.
  - apply tidy_slashless, Htidy. by apply list_elem_of_In.
  - apply entries_NoDup, Htidy. by apply list_elem_of_In.
Qed.

Lemma discovery_returns_no_path_twice_witness :
  NoDup [ "/app/source/a.wav"; "/app/source/sub/B.MP3";
          "/app/source/sub/deep/c.tar.webm" ].
Proof.
  refine (discovery_returns_no_path_twice "/app/source" sample_tree _ _ _ eq_refl).
  - apply (bool_decide_unpack _). vm_compute. exact I.
  - apply Is_true_true. by vm_compute.
Defined.

(** ** Progress lines *)

Section Progress.
Variable w : World.

Lemma iteration_trace_progress total i audioFile :
  filter (fun e => is_progress e = true) (iteration_trace w total i audioFile) =
  [ spinner_start
      (Processing (i + 1) total (Path.relative (SOURCE_DIR w) audioFile)) ].
Proof.
  unfold iteration_trace, failure_report.
  rewrite filter_cons, decide_True by done. f_equal.
  destruct (answer w audioFile) as [text|error];
    [destruct (Js.truthy_string text)|destruct (opt_debug (options w))];
    cbn [app]; rewrite ?filter_cons, ?filter_nil; cbn [is_progress];
    repeat case_decide; done.
Qed.

Lemma loop_trace_progress total i rest :
  filter (fun e => is_progress e = true) (loop_trace w total i rest) =
  imap (fun k audioFile =>
          spinner_start
            (Processing (i + k + 1) total
               (Path.relative (SOURCE_DIR w) audioFile))) rest.
Proof.
  revert i. induction rest as [|f rest IH]; intros i; [done|].
  cbn [loop_trace]. rewrite filter_app, iteration_trace_progress, IH, imap_cons.
  cbn [app]. rewrite Nat.add_0_r. f_equal.
  apply imap_ext. intros k g _. cbn. do 2 f_equal. lia.
Qed.

End Progress.

(** X14.  In a run that passes both checks, discovers [audioFiles] and can
    write every transcript, the files are announced one by one in the
    order of discovery, each with its position counted from 1, the number
    of files found, and its path relative to the source directory. *)
Theorem files_are_announced_in_order (w : World) (audioFiles : list string)
    (files : gmap string string) :
  passes_checks w -> discovers w audioFiles -> writable w audioFiles ->
  filter (fun e => is_progress e = true) (trace (main w files)) =
  imap (fun k audioFile =>
          spinner_start
            (Processing (k + 1) (List.length audioFiles)
               (Path.relative (SOURCE_DIR w) audioFile))) audioFiles.
Proof.
  intros Hchecks Hdisc Hwrite. rewrite (main_run w audioFiles files) by done.
  assert (Hpre : filter (fun e => is_progress e = true) (preamble w) = []).
  { unfold preamble. by destruct (opt_debug (options w)). }
  cbn [prepend trace]. rewrite filter_app, Hpre. cbn [app].
  destruct audioFiles as [|f rest]; [done|].
  remember (f :: rest) as l eqn:Heq.
  rewrite completed_nonempty by (by rewrite Heq). cbn [trace].
  rewrite !filter_app, loop_trace_progress.
  replace (filter _ (summary _ _)) with (@nil Event)
    by (unfold summary; by destruct (_ <? _)%nat).
  cbn. by rewrite app_nil_r.
Qed.

Lemma files_are_announced_in_order_witness :
  filter (fun e => is_progress e = true) (trace (main scenario ∅)) =
  [ spinner_start (Processing 1 2 "a.wav"); spinner_start (Processing 2 2 "b.mp3") ].
Proof.
  refine (files_are_announced_in_order scenario
            [ "/app/source/a.wav"; "/app/source/b.mp3" ] ∅ _ _ _).
  - split; reflexivity.
  - repeat split; reflexivity.
  - repeat constructor.
Defined.

(** X15.  An empty [OPENAI_API_KEY] is handled as a missing one, and the key
    is checked before the model: with the key absent or empty, whatever
    the model and the rest of the world, the run prints the banner and the
    error about the key and exits with status 1, and nothing else takes
    place. *)
Theorem empty_key_is_missing (w : World) (files : gmap string string) :
  OPENAI_API_KEY w = None ∨ OPENAI_API_KEY w = Some "" ->
  main w files =
  {| completion := Exit 1;
     trace := [ console_log Rule; console_log Banner; console_log Rule;
                console_error ApiKeyNotSet ];
     output := files |}.
Proof.
  intros Hkey. apply main_without_key.
  by destruct Hkey as [-> | ->].
Qed.

Lemma empty_key_is_missing_witness :
  exit_status
    (completion
       (main (sample_world (Some "") "no-such-model" "auto" [ File "a.wav" ]
                sample_provider) ∅)) = 1.
Proof.
  rewrite (empty_key_is_missing
             (sample_world (Some "") "no-such-model" "auto" [ File "a.wav" ]
                sample_provider) ∅ (or_intror eq_refl)).
  reflexivity.
Defined.

(** X16.  With the key present, a model identifier that is neither a key of
    [MODELS] nor the name of a property every object inherits ends the run
    at the model check: the run prints the banner, the error about the
    model and the two known models with their descriptions, in the order of
    [MODELS], and exits with status 1, and nothing else takes place. *)
Theorem unlisted_model_ends_run (w : World) (files : gmap string string) :
  Js.truthy (OPENAI_API_KEY w) = true ->
  Js.own MODELS (opt_model (options w)) = None ->
  opt_model (options w) ∉ Js.Object_prototype ->
  main w files =
  {| completion := Exit 1;
     trace := [ console_log Rule; console_log Banner; console_log Rule;
                console_error (InvalidModel (opt_model (options w)));
                console_log AvailableModels;
                console_log (ModelEntry "whisper-1" "OpenAI Whisper (most accurate)");
                console_log (ModelEntry "whisper-1-quantized" "OpenAI Whisper (optimized)") ];
     output := files |}.
Proof.
  intros Hkey Hown Hproto.
  assert (Hget : Js.get MODELS (opt_model (options w)) = Js.Undefined).
  { unfold Js.get. rewrite Hown. by rewrite bool_decide_eq_false_2. }
  rewrite main_with_unknown_model; [reflexivity|done|].
  by rewrite Hget.
Qed.

Lemma unlisted_model_ends_run_witness :
  exit_status
    (completion
       (main (sample_world (Some "sk-test") "gpt-4" "auto" [ File "a.wav" ]
                sample_provider) ∅)) = 1.
Proof.
  rewrite (unlisted_model_ends_run
             (sample_world (Some "sk-test") "gpt-4" "auto" [ File "a.wav" ]
                sample_provider) ∅ eq_refl eq_refl).
  - reflexivity.
  - apply (bool_decide_unpack _). vm_compute. exact I.
Defined.
